(** * A process pool: verification of the dispatch and recovery logic

    This development embeds the [Pool] class of the repository (two
    versions of it: [src/lib/pool.js] and the later
    [src/unnamed/part_000], which adds worker rotation) and proves
    properties of its dispatch, allocation, crash-cleanup and shutdown
    code.

    Modelling conventions.
    - [this.workers] is a JavaScript object used as a map from pid to
      child-process handle: a [gmap nat Child].  [Object.keys] lists
      integer-like keys in ascending order.
    - [this.idle] and [this.tasks] are JavaScript arrays: lists whose head
      is index 0, so [unshift] is cons and [pop] removes the last element.
    - The pool is single threaded and event driven.  Every method and every
      callback is a computation in a small monad that threads the pool,
      collects the calls made to the outside world (Node's [EventEmitter],
      [child_process], [console] and the [Task] collaborator) as a list of
      [Action]s, and may end in a JavaScript [throw].  The listeners and
      the processes called are taken to return normally, and an event that
      a collaborator raises is an input of its own.
    - [Pool] extends Node's [EventEmitter]: the pool keeps the event types
      its listeners were registered for, [on] adds one,
      [removeAllListeners] forgets them all, and [emit('error', ...)]
      throws when no listener is registered for ['error'].
    - What the outside world decides is an argument of the callback that
      observes it: the pid of the process returned by [cp.fork], and the
      number of ['message'] listeners the task collaborator holds on a
      child when that child exits.
    - A callback closes over its [child]; here it finds the child under
      [child.pid] in [workers], which is the same object for as long as the
      operating system gives distinct pids to the children of one pool. *)

From stdpp Require Import base decidable option list sorting gmap strings pretty.
From Stdlib Require Import ZArith Lia.

Local Open Scope string_scope.
Local Open Scope list_scope.
Local Open Scope Z_scope.

(** ** JavaScript arrays *)

Module Array.
Section ops.
Context {A : Type}.

(** [a.unshift(x)]: insert at index 0. *)
Definition unshift (x : A) (a : list A) : list A := x :: a.

(** [a.pop()]: the last element and the array without it; [None] is
    JavaScript's [undefined], returned for an empty array. *)
Definition pop (a : list A) : option (A * list A) :=
  match last a with
  | Some x => Some (x, removelast a)
  | None => None
  end.

(** [a.indexOf(x)]: index of the first occurrence, or -1. *)
Fixpoint indexOf `{EqDecision A} (x : A) (a : list A) : Z :=
  match a with
  | [] => -1
  | y :: a' =>
      if decide (x = y) then 0
      else let i := indexOf x a' in if decide (i = -1) then -1 else i + 1
  end.

(** [a.splice(index, 1)] for an index inside the array. *)
Definition splice1 (index : Z) (a : list A) : list A :=
  delete (Z.to_nat index) a.

End ops.
End Array.

(** ** Data *)

Definition pid := nat.
Bind Scope nat_scope with pid.

(** [new Task(command)]: the task collaborator is external; the pool only
    holds the object, starts it and listens to its events. *)
Record Task := mkTask { command : string }.

#[global] Instance Task_eq_dec : EqDecision Task.
Proof. solve_decision. Defined.

(** The calls the pool makes to the outside world, in program order. *)
Inductive Action :=
| fork (path : string) (args : list string) (child : pid)
      (* cp.fork(this.path, this.options.arguments), which returned [child] *)
| kill (child : pid)                          (* child.kill() *)
| task_run (child : pid) (task : Task)        (* task.on('*', ...).run(this.workers[pid]) *)
| emit (type : string) (message : option string) (task : option Task)
      (* this.emit(type), this.emit(type, task), this.emit(type, message, task) *)
| listener_call (child : pid) (type message : string)
      (* child.listeners('message')[0]({type, message}) *)
| console_log (fmt : string) (args : list string)
| console_error (fmt : string) (err : string)
| removeAllListeners.

#[global] Instance Action_eq_dec : EqDecision Action.
Proof. solve_decision. Defined.

(** ** The monad of pool methods *)

Inductive Completion (A : Type) :=
| Normal (a : A)
| Throw (e : string).
Arguments Normal {A} a.
Arguments Throw {A} e.

Definition M (S A : Type) : Type := S → Completion A * S * list Action.

#[global] Instance M_ret {S} : MRet (M S) := λ A a s, (Normal a, s, []).
#[global] Instance M_bind {S} : MBind (M S) := λ A B f m s,
  match m s with
  | (Normal a, s', out) =>
      let '(r, s'', out') := f a s' in (r, s'', out ++ out')
  | (Throw e, s', out) => (Throw e, s', out)
  end.

Definition get {S} : M S S := λ s, (Normal s, s, []).
Definition modify {S} (f : S → S) : M S unit := λ s, (Normal tt, f s, []).
Definition call {S} (a : Action) : M S unit := λ s, (Normal tt, s, [a]).
Definition throw {S A} (e : string) : M S A := λ s, (Throw e, s, []).

(** Reading a property of [undefined]. *)
Definition TypeError : string := "TypeError: Cannot read properties of undefined".

(** ** The pool of [src/unnamed/part_000] *)

Module Options.
Record t := mk {
  workers : Z;
  arguments : list string;
  maxTasksPerWorker : Z;
}.
End Options.

(** The fields of a child-process handle that the pool reads or writes. *)
Record Child := mkChild {
  _ready_ : bool;
  _taskCount_ : Z;
  killed : bool;
}.

(** The child that [_spawn] registers, and the three updates of a handle:
    [child._ready_ = true], [child._taskCount_++] and what [child.kill()]
    does to [child.killed]. *)
Definition fresh_child : Child := mkChild false 0 false.
Definition mark_ready (c : Child) : Child := mkChild true (_taskCount_ c) (killed c).
Definition count_task (c : Child) : Child :=
  mkChild (_ready_ c) (_taskCount_ c + 1) (killed c).
Definition mark_killed (c : Child) : Child := mkChild (_ready_ c) (_taskCount_ c) true.

(** [_events] is the state the class inherits from [EventEmitter]: the
    event type of every listener registered on the pool, in order. *)
Record Pool := mkPool {
  path : string;
  options : Options.t;
  workers : gmap pid Child;
  idle : list pid;
  tasks : list Task;
  _events : list string;
}.

Definition set_workers (f : gmap pid Child → gmap pid Child) (s : Pool) : Pool :=
  mkPool (path s) (options s) (f (workers s)) (idle s) (tasks s) (_events s).
Definition set_idle (f : list pid → list pid) (s : Pool) : Pool :=
  mkPool (path s) (options s) (workers s) (f (idle s)) (tasks s) (_events s).
Definition set_tasks (f : list Task → list Task) (s : Pool) : Pool :=
  mkPool (path s) (options s) (workers s) (idle s) (f (tasks s)) (_events s).
Definition set_events (f : list string → list string) (s : Pool) : Pool :=
  mkPool (path s) (options s) (workers s) (idle s) (tasks s) (f (_events s)).

(** What [EventEmitter.emit] throws for an ['error'] event that has no
    listener, when the value emitted is not an [Error] object (the
    messages of this model are strings): the code of Node's error. *)
Definition ERR_UNHANDLED_ERROR : string := "ERR_UNHANDLED_ERROR".

(** [this.emit(type, message, task)] for a type that is not fixed in the
    source: the call is made, and it throws when the type is ['error'] and
    the pool has no listener for it. *)
Definition this_emit (type : string) (message : option string)
    (task : option Task) : M Pool unit :=
  call (emit type message task);;
  s ← get;
  if bool_decide (type = "error") && bool_decide ("error" ∉ _events s)
  then throw ERR_UNHANDLED_ERROR
  else mret tt.

(** [this.on(type, listener)], inherited from [EventEmitter]. *)
Definition on (type : string) : M Pool unit :=
  modify (set_events (λ e, e ++ [type])).

(** [Object.keys(this.workers)] *)
Definition Object_keys {V} (o : gmap pid V) : list pid :=
  merge_sort Nat.le (fst <$> map_to_list o).

(** [Object.keys(this.workers).length] *)
Definition keys_length {V} (o : gmap pid V) : Z := Z.of_nat (length (Object_keys o)).

(** [new Pool(path, options)] with every option given. *)
Definition constructor (path : string) (options : Options.t) : Pool :=
  mkPool path options ∅ [] [] [].

Definition available (s : Pool) : Z :=
  let busy := keys_length (workers s) - Z.of_nat (length (idle s)) in
  Options.workers (options s) - busy.

Definition total (s : Pool) : Z := Options.workers (options s).

(** [child.kill()] marks the handle as killed. *)
Definition child_kill (p : pid) : M Pool unit :=
  modify (set_workers (alter mark_killed p));;
  call (kill p).

(** [_spawn()], where [forked] is the pid of the process [cp.fork] returns.
    The readiness listener and the exit and error handlers it installs are
    [readyListener], [on_exit] and [on_error] below. *)
Definition _spawn (forked : pid) : M Pool pid :=
  s ← get;
  call (fork (path s) (Options.arguments (options s)) forked);;
  modify (set_workers (insert forked fresh_child));;
  mret forked.

(** [_start(pid, task)]: the subscription is the callback [on_task_event]
    below. *)
Definition _start (p : pid) (task : Task) : M Pool unit :=
  call (task_run p task).

(** A property access on a child handle that may be [undefined]. *)
Definition the_child (child : option Child) : M Pool Child :=
  match child with
  | Some c => mret c
  | None => throw TypeError
  end.

Definition _allocate (p : pid) : M Pool unit :=
  s ← get;
  let child := workers s !! p in
  let max := Options.maxTasksPerWorker (options s) in
  limit ← (if bool_decide (max > 0)
           then c ← the_child child; mret (bool_decide (_taskCount_ c >= max))
           else mret false);
  if limit : bool then
    child_kill p
  else if bool_decide (length (tasks s) ≠ 0%nat) then
    call (emit "empty" None None);;
    c ← the_child child;
    modify (set_workers (insert p (count_task c)));;
    match Array.pop (tasks s) with
    | Some (task, rest) => modify (set_tasks (λ _, rest));; _start p task
    | None => throw TypeError (* not reached: the array is not empty *)
    end
  else
    modify (set_idle (Array.unshift p));;
    s' ← get;
    if bool_decide (keys_length (workers s') = Z.of_nat (length (idle s')))
    then call (emit "drain" None None)
    else mret tt.

Definition _handleWorkerDone (p forked : pid) : M Pool unit :=
  s ← get;
  if bool_decide (is_Some (workers s !! p)) then
    _allocate p
  else if bool_decide (length (tasks s) ≠ 0%nat) then
    _spawn forked;; mret tt
  else mret tt.

(** The readiness listener of [_spawn].  Setting [_ready_] stands for
    [child.removeListener('message', readyListener)] as well: see
    [on_message]. *)
Definition readyListener (p : pid) (msg_type : string) : M Pool unit :=
  if bool_decide (msg_type = "ready") then
    modify (set_workers (alter mark_ready p));;
    _allocate p
  else mret tt.

(** [cleanUpChild(err)] of the child [p], when the task collaborator holds
    [listeners] listeners of ['message'] on the child.  It reads the
    fields of its child after [delete this.workers[child.pid]]; the handle
    is unchanged by the deletion. *)
Definition cleanUpChild (p : pid) (listeners : nat) (forked : pid) (err : string)
  : M Pool unit :=
  s ← get;
  match workers s !! p with
  | Some child =>
      modify (set_workers (delete p));;
      let index := Array.indexOf p (idle s) in
      if bool_decide (index > -1) then
        modify (set_idle (Array.splice1 index))
      else if negb (_ready_ child) then
        throw "Worker process could not start"
      else if bool_decide (Z.of_nat listeners > 0) then
        call (listener_call p "error" err)
      else if killed child then
        call (console_log "Replacing worker %s after it completed %s tasks"
                [pretty p; pretty (_taskCount_ child)]);;
        _handleWorkerDone p forked
      else
        call (console_error "No listeners for error" err);;
        _handleWorkerDone p forked
  | None => mret tt
  end.

(** [child.on('exit', function(code, signal) ...)] *)
Definition on_exit (p : pid) (code : option Z) (signal : string)
    (listeners : nat) (forked : pid) : M Pool unit :=
  let msg := match code with
             | Some code => "Worker exited with code " +:+ pretty code
             | None => "Worker exited due to signal " +:+ signal
             end in
  cleanUpChild p listeners forked msg.

(** [child.on('error', function(err) ...)] *)
Definition on_error (p : pid) (err : string) (listeners : nat) (forked : pid)
  : M Pool unit :=
  cleanUpChild p listeners forked err.

(** A ['message'] event of the child [p].  [readyListener] is attached by
    [_spawn] and detached by itself on readiness and by [cleanUpChild], so
    it is attached exactly while the child is tracked and not ready. *)
Definition on_message (p : pid) (msg_type : string) : M Pool unit :=
  s ← get;
  match workers s !! p with
  | Some child => if _ready_ child then mret tt else readyListener p msg_type
  | None => mret tt
  end.

(** The callback that [_start(pid, task)] subscribes to every event of the
    task. *)
Definition on_task_event (p : pid) (task : Task) (type message : string)
    (forked : pid) : M Pool unit :=
  (if bool_decide (type = "end" ∨ type = "error")
   then _handleWorkerDone p forked else mret tt);;
  if bool_decide (type = "start") then call (emit type None (Some task))
  else this_emit type (Some message) (Some task).

(** The callback that [run] hands to [setTimeout]. *)
Definition run_deferred (task : Task) (forked : pid) : M Pool unit :=
  s ← get;
  if bool_decide (length (idle s) ≠ 0%nat) then
    match Array.pop (idle s) with
    | Some (p, rest) => modify (set_idle (λ _, rest));; _start p task
    | None => mret tt (* not reached: the array is not empty *)
    end
  else if bool_decide (keys_length (workers s) < Options.workers (options s)) then
    modify (set_tasks (Array.unshift task));;
    _spawn forked;; mret tt
  else
    call (emit "saturated" None None);;
    modify (set_tasks (Array.unshift task)).

(** [run(command)]: the task it returns and the callback it defers. *)
Definition run (command : string) : Task * (pid → M Pool unit) :=
  let task := mkTask command in
  (task, run_deferred task).

(** [array.forEach(f)] *)
Fixpoint forEach {S A} (a : list A) (f : A → M S unit) : M S unit :=
  match a with
  | [] => mret tt
  | x :: a' => f x;; forEach a' f
  end.

Definition drain : M Pool unit :=
  modify (set_tasks (λ _, []));;
  call removeAllListeners;;
  modify (set_events (λ _, []));;
  s ← get;
  forEach (Object_keys (workers s)) child_kill.

(** ** The event loop *)

(** What can happen to a pool: a deferred [run] callback fires, a child
    sends a message, exits or fails, a started task emits an event, or the
    owner calls [drain()] or registers a listener with [on]. *)
Inductive Input :=
| timeout (task : Task) (forked : pid)
| message (child : pid) (msg_type : string)
| exit (child : pid) (code : option Z) (signal : string)
       (listeners : nat) (forked : pid)
| error (child : pid) (err : string) (listeners : nat) (forked : pid)
| task_event (child : pid) (task : Task) (type msg : string) (forked : pid)
| shutdown
| listen (type : string).

Definition handle (i : Input) : M Pool unit :=
  match i with
  | timeout task forked => run_deferred task forked
  | message p msg_type => on_message p msg_type
  | exit p code signal listeners forked => on_exit p code signal listeners forked
  | error p err listeners forked => on_error p err listeners forked
  | task_event p task type msg forked => on_task_event p task type msg forked
  | shutdown => drain
  | listen type => on type
  end.

Definition next (s : Pool) (i : Input) : Pool := (handle i s).1.2.
Definition output (s : Pool) (i : Input) : list Action := (handle i s).2.
Definition thrown (s : Pool) (i : Input) : option string :=
  match (handle i s).1.1 with
  | Normal _ => None
  | Throw e => Some e
  end.

(** The pool after a sequence of inputs, and everything it did. *)
Fixpoint exec (ins : list Input) (s : Pool) : Pool :=
  match ins with
  | [] => s
  | i :: ins' => exec ins' (next s i)
  end.

Fixpoint trace (ins : list Input) (s : Pool) : list Action :=
  match ins with
  | [] => []
  | i :: ins' => output s i ++ trace ins' (next s i)
  end.

(** The exceptions thrown by the handlers along the way.  A handler that
    throws leaves the pool as it was at the [throw]. *)
Fixpoint throws (ins : list Input) (s : Pool) : list string :=
  match ins with
  | [] => []
  | i :: ins' =>
      match thrown s i with
      | Some e => e :: throws ins' (next s i)
      | None => throws ins' (next s i)
      end
  end.

(** ** The pool of [src/lib/pool.js]

    The earlier version of the class: no rotation limit, no task counter,
    and the completion handling written inside the task callback. *)

Module LibPool.

Module Options.
Record t := mk {
  workers : Z;
  arguments : list string;
}.
End Options.

Record Child := mkChild {
  _ready_ : bool;
  killed : bool;
}.

Record Pool := mkPool {
  path : string;
  options : Options.t;
  workers : gmap pid Child;
  idle : list pid;
  tasks : list Task;
  _events : list string;
}.

Definition set_workers (f : gmap pid Child → gmap pid Child) (s : Pool) : Pool :=
  mkPool (path s) (options s) (f (workers s)) (idle s) (tasks s) (_events s).
Definition set_idle (f : list pid → list pid) (s : Pool) : Pool :=
  mkPool (path s) (options s) (workers s) (f (idle s)) (tasks s) (_events s).
Definition set_tasks (f : list Task → list Task) (s : Pool) : Pool :=
  mkPool (path s) (options s) (workers s) (idle s) (f (tasks s)) (_events s).
Definition set_events (f : list string → list string) (s : Pool) : Pool :=
  mkPool (path s) (options s) (workers s) (idle s) (tasks s) (f (_events s)).

Definition this_emit (type : string) (message : option string)
    (task : option Task) : M Pool unit :=
  call (emit type message task);;
  s ← get;
  if bool_decide (type = "error") && bool_decide ("error" ∉ _events s)
  then throw ERR_UNHANDLED_ERROR
  else mret tt.

Definition _spawn (forked : pid) : M Pool pid :=
  s ← get;
  call (fork (path s) (Options.arguments (options s)) forked);;
  modify (set_workers (insert forked (mkChild false false)));;
  mret forked.

Definition _start (p : pid) (task : Task) : M Pool unit :=
  call (task_run p task).

Definition _allocate (p : pid) : M Pool unit :=
  s ← get;
  if bool_decide (length (tasks s) ≠ 0%nat) then
    call (emit "empty" None None);;
    match Array.pop (tasks s) with
    | Some (task, rest) => modify (set_tasks (λ _, rest));; _start p task
    | None => throw TypeError (* not reached: the array is not empty *)
    end
  else
    modify (set_idle (Array.unshift p));;
    s' ← get;
    if bool_decide (keys_length (workers s') = Z.of_nat (length (idle s')))
    then call (emit "drain" None None)
    else mret tt.

Definition readyListener (p : pid) (msg_type : string) : M Pool unit :=
  if bool_decide (msg_type = "ready") then
    modify (set_workers (alter (λ c, mkChild true (killed c)) p));;
    _allocate p
  else mret tt.

Definition on_message (p : pid) (msg_type : string) : M Pool unit :=
  s ← get;
  match workers s !! p with
  | Some child => if _ready_ child then mret tt else readyListener p msg_type
  | None => mret tt
  end.

(** The callback that [_start(pid, task)] subscribes to every event of the
    task. *)
Definition on_task_event (p : pid) (task : Task) (type message : string)
    (forked : pid) : M Pool unit :=
  (if bool_decide (type = "end" ∨ type = "error") then
     s ← get;
     if bool_decide (is_Some (workers s !! p)) then
       _allocate p
     else if bool_decide (length (tasks s) ≠ 0%nat) then
       _spawn forked;; mret tt
     else mret tt
   else mret tt);;
  if bool_decide (type = "start") then call (emit type None (Some task))
  else this_emit type (Some message) (Some task).

Definition run_deferred (task : Task) (forked : pid) : M Pool unit :=
  s ← get;
  if bool_decide (length (idle s) ≠ 0%nat) then
    match Array.pop (idle s) with
    | Some (p, rest) => modify (set_idle (λ _, rest));; _start p task
    | None => mret tt (* not reached: the array is not empty *)
    end
  else if bool_decide (keys_length (workers s) < Options.workers (options s)) then
    modify (set_tasks (Array.unshift task));;
    _spawn forked;; mret tt
  else
    call (emit "saturated" None None);;
    modify (set_tasks (Array.unshift task)).

Definition run (command : string) : Task * (pid → M Pool unit) :=
  let task := mkTask command in
  (task, run_deferred task).

Definition available (s : Pool) : Z :=
  let busy := keys_length (workers s) - Z.of_nat (length (idle s)) in
  Options.workers (options s) - busy.

Definition total (s : Pool) : Z := Options.workers (options s).

(** Calling [child.listeners('message')[0]] when the array is empty. *)
Definition NotAFunction : string :=
  "TypeError: child.listeners(...)[0] is not a function".

(** [cleanUpChild(err)] of the child [p], when the task collaborator holds
    [listeners] listeners of ['message'] on the child: this version calls
    the first one without looking at the length of the array. *)
Definition cleanUpChild (p : pid) (listeners : nat) (err : string)
  : M Pool unit :=
  s ← get;
  match workers s !! p with
  | Some child =>
      modify (set_workers (delete p));;
      let index := Array.indexOf p (idle s) in
      if bool_decide (index > -1) then
        modify (set_idle (Array.splice1 index))
      else if negb (_ready_ child) then
        throw "Worker process could not start"
      else
        match listeners with
        | S _ => call (listener_call p "error" err)
        | O => throw NotAFunction
        end
  | None => mret tt
  end.

Definition on_exit (p : pid) (code : option Z) (signal : string)
    (listeners : nat) : M Pool unit :=
  let msg := match code with
             | Some code => "Worker exited with code " +:+ pretty code
             | None => "Worker exited due to signal " +:+ signal
             end in
  cleanUpChild p listeners msg.

Definition on_error (p : pid) (err : string) (listeners : nat) : M Pool unit :=
  cleanUpChild p listeners err.

Definition child_kill (p : pid) : M Pool unit :=
  modify (set_workers (alter (λ c, mkChild (_ready_ c) true) p));;
  call (kill p).

Definition drain : M Pool unit :=
  modify (set_tasks (λ _, []));;
  call removeAllListeners;;
  modify (set_events (λ _, []));;
  s ← get;
  forEach (Object_keys (workers s)) child_kill.

End LibPool.

(** What the later version adds to the state of the earlier one is the
    [maxTasksPerWorker] option and the [_taskCount_] of every child;
    [erase] forgets both. *)
Definition erase_child (c : Child) : LibPool.Child :=
  LibPool.mkChild (_ready_ c) (killed c).

Definition erase (s : Pool) : LibPool.Pool :=
  LibPool.mkPool (path s)
    (LibPool.Options.mk (Options.workers (options s)) (Options.arguments (options s)))
    (erase_child <$> workers s) (idle s) (tasks s) (_events s).

Definition erase_result {A} (r : Completion A * Pool * list Action)
  : Completion A * LibPool.Pool * list Action :=
  (r.1.1, erase r.1.2, r.2).

(** ** Notions used by the properties *)

(** Shorthands for the results of the methods. *)
Definition rotation_due (s : Pool) (c : Child) : bool :=
  bool_decide (Options.maxTasksPerWorker (options s) > 0)
  && bool_decide (_taskCount_ c >= Options.maxTasksPerWorker (options s)).

Definition drain_if_all_idle (s : Pool) : list Action :=
  if bool_decide (keys_length (workers s) = Z.of_nat (length (idle s)))
  then [emit "drain" None None] else [].

Definition spawned (forked : pid) (s : Pool) : Completion unit * Pool * list Action :=
  (Normal tt, set_workers (insert forked fresh_child) s,
   [fork (path s) (Options.arguments (options s)) forked]).

(** Unfolds the monad in a goal. *)
Ltac run_m :=
  repeat (progress (unfold mbind, M_bind, mret, M_ret, get, modify, call, throw; cbn)).

(** The number of busy workers: tracked and not idle. *)
Definition busy (s : Pool) : Z :=
  Z.of_nat (size (workers s)) - Z.of_nat (length (idle s)).

(** An exit or error of a tracked worker that is not idle and has not
    completed its readiness handshake. *)
Definition startup_failure (s : Pool) (i : Input) : bool :=
  match i with
  | exit p _ _ _ _ | error p _ _ _ =>
      match workers s !! p with
      | Some c => negb (_ready_ c) && bool_decide (p ∉ idle s)
      | None => false
      end
  | _ => false
  end.

(** An ['error'] event of a task that arrives while the pool has no
    listener for ['error']. *)
Definition unhandled_error (s : Pool) (i : Input) : bool :=
  match i with
  | task_event _ _ type _ _ =>
      bool_decide (type = "error") && bool_decide ("error" ∉ _events s)
  | _ => false
  end.

(** The invariant of the data model: no pid is twice in [idle], and an
    idle worker is tracked and has completed its readiness handshake. *)
Definition wf (s : Pool) : Prop :=
  NoDup (idle s)
  ∧ ∀ p, p ∈ idle s → ∃ c, workers s !! p = Some c ∧ _ready_ c = true.

(** The fully-idle state: every tracked worker is idle and the queue is
    empty. *)
Definition fully_idle (s : Pool) : bool :=
  forallb (λ p, bool_decide (p ∈ idle s)) (Object_keys (workers s))
  && bool_decide (tasks s = []).

(** How many times [drain] is emitted in a list of calls. *)
Definition drains (out : list Action) : nat :=
  length (filter (λ a, a = emit "drain" None None) out).

(** How many tasks are started on the worker [p] in a list of calls. *)
Definition is_start_on (p : pid) (a : Action) : bool :=
  match a with
  | task_run q _ => bool_decide (q = p)
  | _ => false
  end.

Definition starts_on (p : pid) (out : list Action) : nat :=
  length (filter (λ a, is_start_on p a) out).

(** A worker that is past its handshake and not idle: it runs a task, or
    was killed by the rotation and has not exited yet. *)
Definition occupied (s : Pool) (p : pid) : Prop :=
  (p ∉ idle s) ∧ ∃ c, workers s !! p = Some c ∧ _ready_ c = true.

(** How the task callback ends: the proxying [emit] throws for an ['error']
    event when the pool has no listener for it. *)
Definition proxy_completion (s : Pool) (type : string) : Completion unit :=
  if bool_decide (type = "error") && bool_decide ("error" ∉ _events s)
  then Throw ERR_UNHANDLED_ERROR else Normal tt.

(** The proxied event of a task. *)
Definition proxied (task : Task) (type msg : string) : Action :=
  if bool_decide (type = "start") then emit type None (Some task)
  else emit type (Some msg) (Some task).

(** The tasks started by a list of calls, in order. *)
Definition started_tasks (out : list Action) : list Task :=
  omap (λ a, match a with task_run _ task => Some task | _ => None end) out.

(** The task an input puts in the queue: the task of a deferred [run]
    callback that finds no idle worker. *)
Definition queued_by (s : Pool) (i : Input) : list Task :=
  match i with
  | timeout task _ => if bool_decide (idle s = []) then [task] else []
  | _ => []
  end.

(** The task an input starts from the queue.  A deferred [run] callback
    starts only its own task; every other start is the one of
    [_allocate]. *)
Definition dequeued_by (s : Pool) (i : Input) : list Task :=
  match i with
  | timeout _ _ => []
  | _ => started_tasks (output s i)
  end.

(** The tasks queued, and the tasks started from the queue, by a sequence
    of inputs, in order. *)
Fixpoint queued (ins : list Input) (s : Pool) : list Task :=
  match ins with
  | [] => []
  | i :: ins' => queued_by s i ++ queued ins' (next s i)
  end.

Fixpoint dequeued (ins : list Input) (s : Pool) : list Task :=
  match ins with
  | [] => []
  | i :: ins' => dequeued_by s i ++ dequeued ins' (next s i)
  end.

(** What the outside world presents to a pool: the process that [cp.fork]
    returns has a pid that no tracked child has, and a task that ends (with
    [end] or [error]) was running on a worker that, if still tracked, is
    past its handshake and not idle. *)
Definition expected (s : Pool) (i : Input) : Prop :=
  match i with
  | timeout _ forked => workers s !! forked = None
  | message _ _ => True
  | exit _ _ _ _ forked => workers s !! forked = None
  | error _ _ _ forked => workers s !! forked = None
  | task_event p _ type _ forked =>
      workers s !! forked = None
      ∧ (type = "end" ∨ type = "error" →
         ∀ c, workers s !! p = Some c → _ready_ c = true ∧ p ∉ idle s)
  | shutdown => True
  | listen _ => True
  end.

(** [run_from s0 past s]: the pool went from [s0] to [s] by expected
    inputs, through the states [past] (the most recent first, [s0] last). *)
Inductive run_from (s0 : Pool) : list Pool → Pool → Prop :=
| run_start : run_from s0 [] s0
| run_step past s i :
    run_from s0 past s → expected s i → run_from s0 (s :: past) (next s i).

(** For how many consecutive states, up to the most recent one, the worker
    [p] has been in [idle]. *)
Fixpoint idle_time (p : pid) (history : list Pool) : nat :=
  match history with
  | [] => 0
  | s :: older =>
      if bool_decide (p ∈ idle s) then S (idle_time p older) else 0
  end.

(** How [idle] changes in one step: workers leave it, or one worker that
    was not in it is put in front. *)
Definition idle_change (l l' : list pid) : Prop :=
  l' `sublist_of` l ∨ ∃ p, (p ∉ l) ∧ l' = p :: l.

(** A run given by its inputs: the states it goes through (the most recent
    first) and the condition that every input is expected. *)
Fixpoint visited (ins : list Input) (past : list Pool) (s : Pool) : list Pool :=
  match ins with
  | [] => past
  | i :: ins' => visited ins' (s :: past) (next s i)
  end.

Fixpoint all_expected (ins : list Input) (s : Pool) : Prop :=
  match ins with
  | [] => True
  | i :: ins' => expected s i ∧ all_expected ins' (next s i)
  end.

(** ** The constructor's defaults *)

(** The [options] argument of the constructor: an object in which any of
    the three options may be missing. *)
Record GivenOptions := mkGiven {
  given_workers : option Z;
  given_arguments : option (list string);
  given_maxTasksPerWorker : option Z;
}.

(** [Object.assign({workers: os.cpus().length, arguments: [],
    maxTasksPerWorker: -1}, options)], where [cpus] is [os.cpus().length]. *)
Definition assign_defaults (cpus : nat) (given : GivenOptions) : Options.t :=
  Options.mk (default (Z.of_nat cpus) (given_workers given))
             (default [] (given_arguments given))
             (default (-1) (given_maxTasksPerWorker given)).

(** [new Pool(path, options)] on a host with [cpus] cores. *)
Definition new_Pool (cpus : nat) (path : string) (given : GivenOptions) : Pool :=
  constructor path (assign_defaults cpus given).

(** ** Further notions *)

(** The task an input submits: the task of a deferred [run] callback. *)
Definition submitted_by (i : Input) : list Task :=
  match i with
  | timeout task _ => [task]
  | _ => []
  end.

Definition submitted (ins : list Input) : list Task := ins ≫= submitted_by.

(** The pids forked, and the pids killed, by a list of calls. *)
Definition forked_pids (out : list Action) : list pid :=
  omap (λ a, match a with fork _ _ p => Some p | _ => None end) out.

Definition killed_pids (out : list Action) : list pid :=
  omap (λ a, match a with kill p => Some p | _ => None end) out.

(** Every tracked worker has counted between 0 and [maxTasksPerWorker]
    tasks. *)
Definition counts_bounded (s : Pool) : Prop :=
  ∀ p c, workers s !! p = Some c →
         0 <= _taskCount_ c <= Options.maxTasksPerWorker (options s).

Definition counts_below (max : Z) (w : gmap pid Child) : Prop :=
  ∀ p c, w !! p = Some c → 0 <= _taskCount_ c <= max.

(** The first occurrence of [p] removed from a list. *)
Fixpoint remove_first (p : pid) (l : list pid) : list pid :=
  match l with
  | [] => []
  | q :: l' => if decide (p = q) then l' else q :: remove_first p l'
  end.

(** When [cleanUpChild] forks a replacement: the child is tracked, not
    idle, past its handshake, nobody listens to its messages, and tasks are
    queued. *)
Definition replaces (s : Pool) (p : pid) (listeners : nat) : bool :=
  match workers s !! p with
  | Some c =>
      bool_decide (p ∉ idle s) && _ready_ c && bool_decide (listeners = 0%nat)
      && bool_decide (tasks s ≠ [])
  | None => false
  end.

(** ** The handlers in direct style

    What each handler returns, written without the monad; [handle_direct]
    below proves that this is what [handle] computes. *)

Definition noop (s : Pool) : Completion unit * Pool * list Action :=
  (Normal tt, s, []).

(** [_allocate(p)] when [workers[p]] is the child [c]. *)
Definition allocated (s : Pool) (p : pid) (c : Child)
  : Completion unit * Pool * list Action :=
  if rotation_due s c then
    (Normal tt, set_workers (alter mark_killed p) s, [kill p])
  else match last (tasks s) with
       | Some task =>
           (Normal tt,
            set_tasks (removelast (A:=Task)) (set_workers (insert p (count_task c)) s),
            [emit "empty" None None; task_run p task])
       | None =>
           (Normal tt, set_idle (cons p) s, drain_if_all_idle (set_idle (cons p) s))
       end.

(** [_handleWorkerDone(p)] *)
Definition completed (s : Pool) (p forked : pid)
  : Completion unit * Pool * list Action :=
  match workers s !! p with
  | Some c => allocated s p c
  | None =>
      match tasks s with
      | [] => noop s
      | _ :: _ => spawned forked s
      end
  end.

(** [cleanUpChild(err)] of the child [p] *)
Definition cleaned (s : Pool) (p : pid) (listeners : nat) (forked : pid)
    (err : string) : Completion unit * Pool * list Action :=
  match workers s !! p with
  | None => noop s
  | Some c =>
      let s1 := set_workers (delete p) s in
      if bool_decide (p ∈ idle s) then
        (Normal tt, set_idle (Array.splice1 (Array.indexOf p (idle s))) s1, [])
      else if negb (_ready_ c) then
        (Throw "Worker process could not start", s1, [])
      else if bool_decide (listeners ≠ 0%nat) then
        (Normal tt, s1, [listener_call p "error" err])
      else
        let log :=
          if killed c
          then console_log "Replacing worker %s after it completed %s tasks"
                 [pretty p; pretty (_taskCount_ c)]
          else console_error "No listeners for error" err in
        match tasks s with
        | [] => (Normal tt, s1, [log])
        | _ :: _ =>
            (Normal tt, set_workers (insert forked fresh_child) s1,
             [log; fork (path s) (Options.arguments (options s)) forked])
        end
  end.

(** The message that the exit handler passes to [cleanUpChild]. *)
Definition exit_message (code : option Z) (signal : string) : string :=
  match code with
  | Some code => "Worker exited with code " +:+ pretty code
  | None => "Worker exited due to signal " +:+ signal
  end.

(** The error that [cleanUpChild] hands to the message listener of the
    task running on a worker that exits or fails: the worker is tracked,
    past its handshake and not idle, and the task listens to its
    messages. *)
Definition handed_error (s : Pool) (i : Input) : option (pid * string) :=
  let hands p listeners err :=
    match workers s !! p with
    | Some c =>
        if bool_decide (p ∉ idle s) && _ready_ c && bool_decide (listeners ≠ 0%nat)
        then Some (p, err) else None
    | None => None
    end in
  match i with
  | exit p code signal listeners _ => hands p listeners (exit_message code signal)
  | error p err listeners _ => hands p listeners err
  | _ => None
  end.

Definition direct (s : Pool) (i : Input) : Completion unit * Pool * list Action :=
  match i with
  | timeout task forked =>
      match last (idle s) with
      | Some p => (Normal tt, set_idle (removelast (A:=pid)) s, [task_run p task])
      | None =>
          if bool_decide (keys_length (workers s) < Options.workers (options s))
          then (Normal tt,
                set_workers (insert forked fresh_child) (set_tasks (cons task) s),
                [fork (path s) (Options.arguments (options s)) forked])
          else (Normal tt, set_tasks (cons task) s, [emit "saturated" None None])
      end
  | message p msg_type =>
      match workers s !! p with
      | Some c =>
          if _ready_ c then noop s
          else if bool_decide (msg_type = "ready")
               then allocated (set_workers (alter mark_ready p) s) p (mark_ready c)
               else noop s
      | None => noop s
      end
  | exit p code signal listeners forked =>
      cleaned s p listeners forked (exit_message code signal)
  | error p err listeners forked => cleaned s p listeners forked err
  | task_event p task type msg forked =>
      let r := if bool_decide (type = "end" ∨ type = "error")
               then completed s p forked else noop s in
      (proxy_completion s type, r.1.2, r.2 ++ [proxied task type msg])
  | shutdown =>
      (Normal tt,
       set_workers (fmap mark_killed) (set_events (λ _, []) (set_tasks (λ _, []) s)),
       removeAllListeners :: (kill <$> Object_keys (workers s)))
  | listen type => (Normal tt, set_events (λ e, e ++ [type]) s, [])
  end.

(** The inputs whose handler may call [_allocate]: the readiness message
    of a worker and the [end] or [error] event of a task. *)
Definition allocates (i : Input) : bool :=
  match i with
  | message _ type => bool_decide (type = "ready")
  | task_event _ _ type _ _ => bool_decide (type = "end" ∨ type = "error")
  | _ => false
  end.

(** ** After [drain()]

    An input other than a submitted task or a new listener. *)
Definition passive (i : Input) : bool :=
  match i with
  | timeout _ _ | listen _ => false
  | _ => true
  end.

Definition all_killed (w : gmap pid Child) : Prop :=
  ∀ p c, w !! p = Some c → killed c = true.

(** The pool as [drain()] leaves it: nothing is queued, the pool has no
    listener and every tracked worker has been killed. *)
Definition drained (s : Pool) : Prop :=
  tasks s = [] ∧ _events s = [] ∧ all_killed (workers s).

(** * Properties *)

(** ** Arrays and keys *)

Lemma indexOf_absent {A} `{EqDecision A} (x : A) (a : list A) :
  Array.indexOf x a = -1 ↔ x ∉ a.
Proof.
  induction a as [|y a IH]; simpl.
  - split; [intros _; apply not_elem_of_nil | done].
  - rewrite not_elem_of_cons. destruct (decide (x = y)) as [->|Hne].
    + split; [done | intros [? _]; done].
    + destruct (decide (Array.indexOf x a = -1)) as [E|E].
      * split; [intros _; split; [done | by apply IH] | done].
      * split; [intros E'; exfalso; apply E; clear -E' IH;
                 assert (0 <= Array.indexOf x a ∨ Array.indexOf x a = -1) as [?|?];
                 [|lia|done] | intros [_ ?]; exfalso; apply E; by apply IH].
        clear. induction a as [|z a IH]; simpl; [by right|].
        destruct (decide (x = z)); [left; lia|].
        destruct (decide (Array.indexOf x a = -1)); [by right | left; lia].
Qed.

Lemma indexOf_range {A} `{EqDecision A} (x : A) (a : list A) :
  Array.indexOf x a = -1 ∨ 0 <= Array.indexOf x a.
Proof.
  induction a as [|z a IH]; simpl; [by left|].
  destruct (decide (x = z)); [right; lia|].
  destruct (decide (Array.indexOf x a = -1)); [by left | right; lia].
Qed.

Lemma indexOf_present {A} `{EqDecision A} (x : A) (a : list A) :
  Array.indexOf x a > -1 ↔ x ∈ a.
Proof.
  destruct (decide (x ∈ a)) as [Hin|Hin].
  - split; [done | intros _].
    destruct (indexOf_range x a) as [E|?]; [|lia].
    by apply indexOf_absent in E.
  - split; [|done]. intros ?. apply indexOf_absent in Hin. lia.
Qed.

Lemma Object_keys_perm {V} (o : gmap pid V) : Object_keys o ≡ₚ (map_to_list o).*1.
Proof. apply merge_sort_Permutation. Qed.

Lemma elem_of_Object_keys {V} (o : gmap pid V) (p : pid) :
  p ∈ Object_keys o ↔ is_Some (o !! p).
Proof.
  rewrite Object_keys_perm, list_elem_of_fmap. split.
  - intros [[q v] [-> Hin]]. apply elem_of_map_to_list in Hin. by exists v.
  - intros [v Hv]. exists (p, v). split; [done | by apply elem_of_map_to_list].
Qed.

Lemma NoDup_Object_keys {V} (o : gmap pid V) : NoDup (Object_keys o).
Proof. rewrite Object_keys_perm. apply NoDup_fst_map_to_list. Qed.

Lemma keys_length_size {V} (o : gmap pid V) : keys_length o = Z.of_nat (size o).
Proof.
  unfold keys_length. by rewrite Object_keys_perm, length_fmap, length_map_to_list.
Qed.

(** ** Running the monad *)

Lemma bind_normal {S A B} (m : M S A) (f : A → M S B) s a s' out :
  m s = (Normal a, s', out) →
  (m ≫= f) s = let '(r, s'', out') := f a s' in (r, s'', out ++ out').
Proof. intros E. unfold mbind, M_bind. by rewrite E. Qed.

(** ** What [_allocate] does to a tracked worker *)

Lemma _allocate_tracked (s : Pool) (p : pid) (c : Child) :
  workers s !! p = Some c →
  _allocate p s =
    if rotation_due s c then
      (Normal tt, set_workers (alter mark_killed p) s, [kill p])
    else match last (tasks s) with
         | Some task =>
             (Normal tt,
              set_tasks (removelast (A:=Task)) (set_workers (insert p (count_task c)) s),
              [emit "empty" None None; task_run p task])
         | None =>
             (Normal tt, set_idle (cons p) s, drain_if_all_idle (set_idle (cons p) s))
         end.
Proof.
  intros Hc. unfold _allocate, rotation_due, drain_if_all_idle. run_m. rewrite Hc. cbn.
  destruct (bool_decide (Options.maxTasksPerWorker (options s) > 0)); cbn;
    [destruct (bool_decide (_taskCount_ c >= _)); cbn; [done|] |].
  all: destruct (last (tasks s)) as [task|] eqn:El.
  all: try (apply last_None in El; rewrite El; cbn;
            rewrite bool_decide_eq_false_2 by (intros H; by apply H);
            unfold Array.unshift; cbn; by case_bool_decide).
  all: assert (length (tasks s) ≠ 0%nat) as Hlen
         by (destruct (tasks s); [by cbn in El | cbn; lia]).
  all: rewrite (bool_decide_eq_true_2 _ Hlen); cbn.
  all: unfold Array.pop; rewrite El; cbn; done.
Qed.

(** ** The other methods, case by case *)

Lemma _handleWorkerDone_tracked (s : Pool) (p forked : pid) :
  is_Some (workers s !! p) → _handleWorkerDone p forked s = _allocate p s.
Proof.
  intros Hp. unfold _handleWorkerDone. run_m.
  rewrite (bool_decide_eq_true_2 _ Hp). by destruct (_allocate p s) as [[[]]].
Qed.

Lemma _handleWorkerDone_untracked (s : Pool) (p forked : pid) :
  workers s !! p = None →
  _handleWorkerDone p forked s =
    match tasks s with
    | [] => (Normal tt, s, [])
    | _ :: _ => spawned forked s
    end.
Proof.
  intros Hp. unfold _handleWorkerDone, _spawn, spawned. run_m.
  rewrite bool_decide_eq_false_2 by (rewrite Hp; by intros [? ?]).
  by destruct (tasks s).
Qed.

Lemma run_deferred_cases (s : Pool) (task : Task) (forked : pid) :
  run_deferred task forked s =
    match last (idle s) with
    | Some p => (Normal tt, set_idle (removelast (A:=pid)) s, [task_run p task])
    | None =>
        if bool_decide (keys_length (workers s) < Options.workers (options s))
        then (Normal tt,
              set_workers (insert forked fresh_child) (set_tasks (cons task) s),
              [fork (path s) (Options.arguments (options s)) forked])
        else (Normal tt, set_tasks (cons task) s, [emit "saturated" None None])
    end.
Proof.
  unfold run_deferred, _spawn, _start. run_m.
  destruct (last (idle s)) as [p|] eqn:El.
  - assert (length (idle s) ≠ 0%nat) as Hlen
      by (destruct (idle s); [by cbn in El | cbn; lia]).
    rewrite (bool_decide_eq_true_2 _ Hlen). unfold Array.pop. by rewrite El.
  - apply last_None in El. rewrite El. cbn.
    rewrite bool_decide_eq_false_2 by (intros H; by apply H).
    by case_bool_decide.
Qed.

Lemma child_kill_result (p : pid) (s : Pool) :
  child_kill p s = (Normal tt, set_workers (alter mark_killed p) s, [kill p]).
Proof. done. Qed.

Lemma forEach_child_kill (keys : list pid) (s : Pool) :
  forEach keys child_kill s =
    (Normal tt,
     set_workers (λ w, foldl (λ w key, alter mark_killed key w) w keys) s,
     kill <$> keys).
Proof.
  revert s. induction keys as [|key keys IH]; intros s; cbn [forEach].
  - by destruct s.
  - erewrite bind_normal by apply child_kill_result. rewrite IH. by destruct s.
Qed.

Lemma lookup_kill_all (keys : list pid) (w : gmap pid Child) (p : pid) :
  foldl (λ w key, alter mark_killed key w) w keys !! p =
    if decide (p ∈ keys) then mark_killed <$> w !! p else w !! p.
Proof.
  revert w. induction keys as [|key keys IH]; intros w; cbn [foldl]; [done|].
  rewrite IH, lookup_alter.
  destruct (decide (p ∈ keys)) as [Hin|Hin],
           (decide (p ∈ key :: keys)) as [Hin'|Hin'],
           (decide (key = p)) as [->|Hne]; try done.
  - by destruct (w !! p).
  - exfalso. apply Hin'. by apply list_elem_of_further.
  - exfalso. apply Hin'. by apply list_elem_of_further.
  - apply elem_of_cons in Hin' as [->|?]; done.
  - exfalso. apply Hin'. apply list_elem_of_here.
Qed.

Lemma drain_result (s : Pool) :
  drain s =
    (Normal tt,
     set_workers (fmap mark_killed) (set_events (λ _, []) (set_tasks (λ _, []) s)),
     removeAllListeners :: (kill <$> Object_keys (workers s))).
Proof.
  unfold drain. run_m. rewrite forEach_child_kill. cbn.
  unfold set_workers, set_events, set_tasks. cbn. do 2 f_equal. f_equal.
  apply map_eq. intros p. rewrite lookup_kill_all, lookup_fmap.
  case_decide as Hin; [done|].
  rewrite elem_of_Object_keys in Hin.
  destruct (workers s !! p) eqn:E; [|done]. exfalso. apply Hin. eauto.
Qed.

Lemma cleanUpChild_tracked (s : Pool) (p : pid) (c : Child)
    (listeners : nat) (forked : pid) (err : string) :
  workers s !! p = Some c →
  cleanUpChild p listeners forked err s =
    let s1 := set_workers (delete p) s in
    if bool_decide (p ∈ idle s) then
      (Normal tt, set_idle (Array.splice1 (Array.indexOf p (idle s))) s1, [])
    else if negb (_ready_ c) then
      (Throw "Worker process could not start", s1, [])
    else if bool_decide (listeners ≠ 0%nat) then
      (Normal tt, s1, [listener_call p "error" err])
    else
      let log :=
        if killed c
        then console_log "Replacing worker %s after it completed %s tasks"
               [pretty p; pretty (_taskCount_ c)]
        else console_error "No listeners for error" err in
      match tasks s with
      | [] => (Normal tt, s1, [log])
      | _ :: _ =>
          (Normal tt, set_workers (insert forked fresh_child) s1,
           [log; fork (path s) (Options.arguments (options s)) forked])
      end.
Proof.
  intros Hc. unfold cleanUpChild. run_m. rewrite Hc. cbn.
  assert (workers (set_workers (delete p) s) !! p = None) as Hgone
    by (cbn; apply lookup_delete_eq).
  pose proof (_handleWorkerDone_untracked _ p forked Hgone) as Hdone.
  destruct (decide (p ∈ idle s)) as [Hin|Hin].
  - rewrite (bool_decide_eq_true_2 (p ∈ idle s) Hin).
    rewrite bool_decide_eq_true_2 by (by apply indexOf_present). done.
  - rewrite (bool_decide_eq_false_2 (p ∈ idle s) Hin).
    rewrite bool_decide_eq_false_2 by (by rewrite indexOf_present).
    destruct (_ready_ c); cbn; [|done].
    destruct listeners as [|n].
    + rewrite bool_decide_eq_false_2 by lia.
      rewrite bool_decide_eq_false_2 by (intros H; by apply H).
      destruct (killed c); cbn; rewrite Hdone; cbn;
        by destruct (tasks s).
    + rewrite bool_decide_eq_true_2 by lia.
      rewrite bool_decide_eq_true_2 by lia. done.
Qed.

Lemma bind_completion {S A B} (m : M S A) (f : A → M S B) (s : S) :
  ((m ≫= f) s).1.1 =
    match (m s).1.1 with
    | Normal a => (f a (m s).1.2).1.1
    | Throw e => Throw e
    end.
Proof.
  unfold mbind, M_bind. destruct (m s) as [[[a|e] s'] out]; cbn; [|done].
  by destruct (f a s') as [[? ?] ?].
Qed.

Lemma _allocate_normal (s : Pool) (p : pid) :
  is_Some (workers s !! p) → (_allocate p s).1.1 = Normal tt.
Proof.
  intros [c Hc]. rewrite (_allocate_tracked _ _ _ Hc).
  destruct (rotation_due s c); [done|]. by destruct (last (tasks s)).
Qed.

Lemma _handleWorkerDone_normal (s : Pool) (p forked : pid) :
  (_handleWorkerDone p forked s).1.1 = Normal tt.
Proof.
  destruct (workers s !! p) as [c|] eqn:Hc.
  - rewrite _handleWorkerDone_tracked by eauto. apply _allocate_normal. eauto.
  - rewrite _handleWorkerDone_untracked by done. by destruct (tasks s).
Qed.

(** ** The handlers, case by case *)

Lemma on_message_cases (s : Pool) (p : pid) (msg_type : string) :
  on_message p msg_type s = (Normal tt, s, [])
  ∨ ∃ c, workers s !! p = Some c ∧ _ready_ c = false ∧ msg_type = "ready"
         ∧ on_message p msg_type s
           = _allocate p (set_workers (alter mark_ready p) s).
Proof.
  unfold on_message. erewrite bind_normal by reflexivity. cbv beta.
  destruct (workers s !! p) as [c|] eqn:Hc; [|by left].
  destruct (_ready_ c) eqn:Hr; [by left|].
  unfold readyListener. case_bool_decide as Hty; [|by left].
  right. exists c. repeat split; try done.
  erewrite bind_normal by reflexivity. unfold mark_ready.
  by destruct (_allocate p _) as [[r s'] out].
Qed.

Lemma _allocate_events (s : Pool) (p : pid) :
  _events (_allocate p s).1.2 = _events s.
Proof.
  destruct (workers s !! p) as [c|] eqn:Hc.
  - rewrite (_allocate_tracked _ _ _ Hc).
    destruct (rotation_due s c); [done|]. by destruct (last (tasks s)).
  - unfold _allocate, the_child. run_m. rewrite Hc.
    destruct (bool_decide (Options.maxTasksPerWorker (options s) > 0)); cbn;
      [done|].
    destruct (bool_decide (length (tasks s) ≠ 0%nat)); cbn; [done|].
    by case_bool_decide.
Qed.

Lemma _handleWorkerDone_events (s : Pool) (p forked : pid) :
  _events (_handleWorkerDone p forked s).1.2 = _events s.
Proof.
  destruct (workers s !! p) as [c|] eqn:Hc.
  - rewrite _handleWorkerDone_tracked by eauto. apply _allocate_events.
  - rewrite _handleWorkerDone_untracked by done. by destruct (tasks s).
Qed.

Lemma this_emit_result (s : Pool) (type : string) (message : option string)
    (task : option Task) :
  this_emit type message task s =
    (proxy_completion s type, s, [emit type message task]).
Proof.
  unfold this_emit, proxy_completion. run_m.
  by destruct (bool_decide (type = "error") && bool_decide ("error" ∉ _events s)).
Qed.

Lemma on_task_event_cases (s : Pool) (p : pid) (task : Task)
    (type msg : string) (forked : pid) :
  on_task_event p task type msg forked s =
    let r := if bool_decide (type = "end" ∨ type = "error")
             then _handleWorkerDone p forked s else (Normal tt, s, []) in
    (proxy_completion s type, r.1.2, r.2 ++ [proxied task type msg]).
Proof.
  unfold on_task_event, proxied.
  destruct (bool_decide (type = "end" ∨ type = "error")).
  - pose proof (_handleWorkerDone_normal s p forked) as Hn.
    pose proof (_handleWorkerDone_events s p forked) as He.
    destruct (_handleWorkerDone p forked s) as [[r s'] out] eqn:E.
    cbn in Hn, He. subst r. erewrite bind_normal by exact E.
    case_bool_decide as Hty.
    + subst type. by cbn.
    + rewrite this_emit_result. unfold proxy_completion. rewrite He.
      by destruct (bool_decide (type = "error") && _).
  - erewrite bind_normal by reflexivity.
    case_bool_decide as Hty.
    + subst type. by cbn.
    + rewrite this_emit_result. unfold proxy_completion.
      by destruct (bool_decide (type = "error") && _).
Qed.

(** ** Capacity (C4) *)

(** C4: in every pool state, [available()] plus the number of busy workers
    (tracked workers minus idle workers) is the configured worker limit;
    equivalently [available() = options.workers - (|workers| - |idle|)]. *)
Theorem available_plus_busy (s : Pool) :
  available s + busy s = Options.workers (options s)
  ∧ available s =
      Options.workers (options s)
      - (Z.of_nat (size (workers s)) - Z.of_nat (length (idle s))).
Proof. unfold available, busy. rewrite keys_length_size. lia. Qed.

(** ** Crash cleanup (C5, C6) *)

(** C6: if the worker's pid is no longer a key of [workers], [cleanUpChild]
    leaves the pool as it is (so [workers], [idle] and [tasks] are
    unchanged), makes no call at all (so it forks no replacement) and does
    not throw; the same holds for the exit and error handlers that call
    it. *)
Theorem cleanUpChild_untracked_noop (s : Pool) (p : pid) (listeners : nat)
    (forked : pid) (err : string) (code : option Z) (signal : string) :
  workers s !! p = None →
  cleanUpChild p listeners forked err s = (Normal tt, s, [])
  ∧ handle (exit p code signal listeners forked) s = (Normal tt, s, [])
  ∧ handle (error p err listeners forked) s = (Normal tt, s, []).
Proof.
  intros Hp.
  assert (∀ e, cleanUpChild p listeners forked e s = (Normal tt, s, [])) as H.
  { intros e. unfold cleanUpChild. run_m. by rewrite Hp. }
  split; [apply H|]. split; cbn; [unfold on_exit | unfold on_error]; apply H.
Qed.

Lemma cleanUpChild_untracked_noop_witness :
  let s := mkPool "worker.js" (Options.mk 2 [] (-1))
             {[ 7%nat := mkChild true 0 false ]} [7%nat] [mkTask "job"] [] in
  cleanUpChild 3 0 8 "gone" s = (Normal tt, s, [])
  ∧ handle (exit 3%nat (Some 1) "" 0 8) s = (Normal tt, s, [])
  ∧ handle (error 3%nat "gone" 0 8) s = (Normal tt, s, []).
Proof.
  intros s. apply (cleanUpChild_untracked_noop s 3 0 8 "gone" (Some 1) "").
  reflexivity.
Defined.

(** After [cleanUpChild] the pid is not tracked (unless the replacement
    process was given the very same pid), so a second exit or error signal
    for the same child is a no-op. *)
Lemma cleanUpChild_untracks (s : Pool) (p : pid) (listeners : nat)
    (forked : pid) (err : string) :
  forked ≠ p →
  workers (cleanUpChild p listeners forked err s).1.2 !! p = None.
Proof.
  intros Hne. destruct (workers s !! p) as [c|] eqn:Hc.
  - rewrite (cleanUpChild_tracked _ _ _ _ _ _ Hc). cbn.
    repeat case_match; cbn; rewrite ?lookup_insert_ne by done;
      apply lookup_delete_eq.
  - unfold cleanUpChild. run_m. by rewrite Hc.
Qed.

Lemma cleanUpChild_twice (s : Pool) (p : pid) (l1 l2 : nat)
    (f1 f2 : pid) (e1 e2 : string) :
  f1 ≠ p →
  let s' := (cleanUpChild p l1 f1 e1 s).1.2 in
  cleanUpChild p l2 f2 e2 s' = (Normal tt, s', []).
Proof.
  intros Hne s'.
  assert (workers s' !! p = None) as Hp by (by apply cleanUpChild_untracks).
  unfold cleanUpChild. run_m. by rewrite Hp.
Qed.

Lemma thrown_cases (s : Pool) (i : Input) :
  thrown s i =
    (if startup_failure s i then Some "Worker process could not start"
     else if unhandled_error s i then Some ERR_UNHANDLED_ERROR
     else None).
Proof.
  assert (∀ p l f e, match (cleanUpChild p l f e s).1.1 with
                     | Normal _ => None
                     | Throw x => Some x
                     end =
                     match workers s !! p with
                     | Some c =>
                         if negb (_ready_ c) && bool_decide (p ∉ idle s)
                         then Some "Worker process could not start" else None
                     | None => None
                     end) as Hclean.
  { intros p l f e. destruct (workers s !! p) as [c|] eqn:Hc.
    - rewrite (cleanUpChild_tracked _ _ _ _ _ _ Hc). cbn.
      destruct (decide (p ∈ idle s)) as [Hin|Hin].
      + rewrite (bool_decide_eq_true_2 _ Hin).
        rewrite (bool_decide_eq_false_2 (p ∉ idle s)) by tauto.
        by rewrite andb_false_r.
      + rewrite (bool_decide_eq_false_2 _ Hin).
        rewrite (bool_decide_eq_true_2 (p ∉ idle s)) by done.
        rewrite andb_true_r. destruct (_ready_ c); cbn; [|done].
        repeat case_match; done.
    - unfold cleanUpChild. run_m. by rewrite Hc. }
  unfold thrown. destruct i as [task f|p ty|p code sig l f|p e l f|p task ty msg f| |lty];
    cbn [handle startup_failure unhandled_error].
  - rewrite run_deferred_cases. repeat case_match; done.
  - unfold on_message. rewrite bind_completion. cbn.
    destruct (workers s !! p) as [c|] eqn:Hc; [|done].
    destruct (_ready_ c); [done|]. unfold readyListener.
    case_bool_decide; [|done]. rewrite bind_completion. cbn.
    rewrite _allocate_normal; [done|]. cbn. rewrite lookup_alter.
    rewrite decide_True by done. rewrite Hc. by eexists.
  - unfold on_exit. rewrite Hclean.
    destruct (workers s !! p) as [c|]; [|done]. by destruct (negb _ && _).
  - unfold on_error. rewrite Hclean.
    destruct (workers s !! p) as [c|]; [|done]. by destruct (negb _ && _).
  - rewrite on_task_event_cases. cbn [fst snd]. unfold proxy_completion.
    by destruct (bool_decide (ty = "error") && _).
  - by rewrite drain_result.
  - done.
Qed.

Lemma handle_handed_error (s : Pool) (i : Input) (p : pid) (err : string) :
  handed_error s i = Some (p, err) →
  handle i s
  = (Normal tt, set_workers (delete p) s, [listener_call p "error" err]).
Proof.
  assert (∀ q l f e,
            match workers s !! q with
            | Some c =>
                if bool_decide (q ∉ idle s) && _ready_ c
                   && bool_decide (l ≠ 0%nat)
                then Some (q, e) else None
            | None => None
            end = Some (p, err) →
            cleanUpChild q l f e s
            = (Normal tt, set_workers (delete p) s,
               [listener_call p "error" err])) as Hclean.
  { intros q l f e Hh. destruct (workers s !! q) as [c|] eqn:Hc; [|done].
    rewrite (cleanUpChild_tracked _ _ _ _ _ _ Hc). cbn zeta.
    destruct (decide (q ∈ idle s)) as [Hin|Hin].
    - rewrite (bool_decide_eq_false_2 (q ∉ idle s)) in Hh by tauto. done.
    - rewrite (bool_decide_eq_false_2 _ Hin).
      destruct (_ready_ c); [|by rewrite andb_false_r in Hh]. cbn [negb].
      destruct (bool_decide (l ≠ 0%nat)); [|by rewrite andb_false_r in Hh].
      rewrite (bool_decide_eq_true_2 (q ∉ idle s)) in Hh by done.
      by injection Hh as -> ->. }
  destruct i as [task f|q ty|q code sig l f|q e l f|q task ty msg f| |lty];
    cbn [handed_error handle]; try done.
  - unfold on_exit. apply Hclean.
  - unfold on_error. apply Hclean.
Qed.

(** C5, as the code has it: the handlers of the pool throw in exactly two
    situations.  When a tracked worker that is not idle and has not
    completed its readiness handshake exits or errors, [cleanUpChild]
    throws ['Worker process could not start'].  When a task reports
    ['error'] while the pool has no listener for ['error'] (as is always
    the case after [drain()]), the proxying [emit] throws
    [ERR_UNHANDLED_ERROR].  Every other input, in every state, is handled
    without an exception.  An event of a task, its [error] included, is
    proxied to the owner of the pool by the last call of the task
    callback, the [emit].  The second situation includes the crash of a
    busy worker: [cleanUpChild] hands the error to the message listener of
    its task and does nothing else, and when the task reports this error,
    the task callback (which runs inside the exit or error handler if the
    task reports it at once) throws unless the pool has a listener for
    ['error']. *)
Theorem thrown_iff_startup_failure_or_unhandled_error (s : Pool) (i : Input) :
  thrown s i =
    (if startup_failure s i then Some "Worker process could not start"
     else if unhandled_error s i then Some ERR_UNHANDLED_ERROR
     else None)
  ∧ (∀ p task type msg forked,
       i = task_event p task type msg forked →
       last (output s i) = Some (proxied task type msg))
  ∧ ∀ p err,
      handed_error s i = Some (p, err) →
      output s i = [listener_call p "error" err]
      ∧ ∀ task forked,
          thrown (next s i) (task_event p task "error" err forked)
          = if bool_decide ("error" ∈ _events s) then None
            else Some ERR_UNHANDLED_ERROR.
Proof.
  split; [apply thrown_cases|]. split.
  { intros p task type msg forked ->. unfold output. cbn [handle].
    rewrite on_task_event_cases. apply last_snoc. }
  intros p err Hh. unfold output, next.
  rewrite (handle_handed_error s i p err Hh). cbn [fst snd]. split; [done|].
  intros task forked. rewrite thrown_cases.
  cbn [startup_failure unhandled_error _events set_workers].
  rewrite (bool_decide_eq_true_2 ("error" = "error")) by done. cbn [andb].
  destruct (decide ("error" ∈ _events s)) as [Hin|Hin].
  - rewrite (bool_decide_eq_true_2 _ Hin).
    by rewrite (bool_decide_eq_false_2 ("error" ∉ _events s)) by tauto.
  - rewrite (bool_decide_eq_false_2 _ Hin).
    by rewrite (bool_decide_eq_true_2 ("error" ∉ _events s)) by done.
Qed.

Lemma thrown_iff_startup_failure_or_unhandled_error_witness :
  let s := exec [listen "error"; timeout (mkTask "job") 1%nat;
                 message 1%nat "ready"; shutdown]
             (constructor "worker.js" (Options.mk 1 [] (-1))) in
  let i := exit 1%nat None "SIGTERM" 1 2 in
  let err := "Worker exited due to signal SIGTERM" in
  _events s = []
  ∧ thrown s i = None
  ∧ output s i = [listener_call 1%nat "error" err]
  ∧ ∀ task forked,
      thrown (next s i) (task_event 1%nat task "error" err forked)
      = if bool_decide ("error" ∈ _events s) then None
        else Some ERR_UNHANDLED_ERROR.
Proof.
  intros s i err.
  destruct (thrown_iff_startup_failure_or_unhandled_error s i)
    as (Hthrown & _ & Hhanded).
  split; [vm_compute; reflexivity|]. split; [exact Hthrown|].
  apply (Hhanded 1%nat err). vm_compute. reflexivity.
Defined.

(** The second situation is real: after [drain()] has removed the
    listeners of the pool, the ['error'] event of a task makes the task
    callback throw, after the [emit] call. *)
Lemma unhandled_error_throws :
  let s := exec [listen "error"; timeout (mkTask "job") 1%nat;
                 message 1%nat "ready"; shutdown]
             (constructor "worker.js" (Options.mk 1 [] (-1))) in
  _events s = []
  ∧ (handle (task_event 1%nat (mkTask "job") "error" "failed" 2) s).1.1
    = Throw ERR_UNHANDLED_ERROR
  ∧ output s (task_event 1%nat (mkTask "job") "error" "failed" 2)
    = [emit "drain" None None;
       emit "error" (Some "failed") (Some (mkTask "job"))].
Proof. vm_compute. repeat split; reflexivity. Qed.

(** C5 as stated fails: a worker that exits before its readiness handshake
    makes the exit handler throw. *)
Lemma startup_failure_throws :
  let s := exec [timeout (mkTask "job") 1%nat]
             (constructor "worker.js" (Options.mk 1 [] (-1))) in
  workers s !! 1%nat = Some (mkChild false 0 false)
  ∧ handle (exit 1%nat (Some 1) "" 0 2) s
    = (Throw "Worker process could not start",
       set_workers (delete 1%nat) s, []).
Proof. vm_compute. split; reflexivity. Qed.

(** ** Saturation (C8) *)

(** C8: when the deferred callback of [run] finds no idle worker and as
    many tracked workers as the configured limit, it emits [saturated],
    puts the task in the pending queue and does nothing else: no fork, and
    [workers] and [idle] are unchanged. *)
Theorem run_deferred_saturated (s : Pool) (task : Task) (forked : pid) :
  idle s = [] →
  Z.of_nat (size (workers s)) = Options.workers (options s) →
  let r := run_deferred task forked s in
  r = (Normal tt, set_tasks (Array.unshift task) s, [emit "saturated" None None])
  ∧ workers r.1.2 = workers s
  ∧ idle r.1.2 = idle s
  ∧ tasks r.1.2 = task :: tasks s.
Proof.
  intros Hidle Hfull r. subst r. rewrite run_deferred_cases, Hidle. cbn.
  rewrite bool_decide_eq_false_2 by (rewrite keys_length_size; lia). done.
Qed.

Lemma run_deferred_saturated_witness :
  let s := mkPool "worker.js" (Options.mk 1 [] (-1))
             {[ 4%nat := mkChild true 1 false ]} [] [mkTask "first"] [] in
  let r := run_deferred (mkTask "second") 5 s in
  r = (Normal tt, set_tasks (Array.unshift (mkTask "second")) s,
       [emit "saturated" None None])
  ∧ workers r.1.2 = workers s
  ∧ idle r.1.2 = idle s
  ∧ tasks r.1.2 = mkTask "second" :: tasks s.
Proof.
  intros s.
  apply (run_deferred_saturated s (mkTask "second") 5); reflexivity.
Defined.

(** ** Shutdown (C9) *)

(** C9: [drain()] returns normally after emptying the queue, calling
    [removeAllListeners()] and then [kill()] on every tracked worker, once
    each, in the order of [Object.keys]; the workers stay tracked (nothing
    waits for them or for their tasks) and [idle] is untouched. *)
Theorem drain_kills_every_worker (s : Pool) :
  let r := drain s in
  r.1.1 = Normal tt
  ∧ tasks r.1.2 = []
  ∧ r.2 = removeAllListeners :: (kill <$> Object_keys (workers s))
  ∧ NoDup (Object_keys (workers s))
  ∧ (∀ p, is_Some (workers s !! p) ↔ kill p ∈ r.2)
  ∧ workers r.1.2 = mark_killed <$> workers s
  ∧ idle r.1.2 = idle s.
Proof.
  cbn zeta. rewrite drain_result. cbn.
  repeat split; try done.
  - apply NoDup_Object_keys.
  - intros Hp. apply list_elem_of_further, list_elem_of_fmap.
    exists p. split; [done | by apply elem_of_Object_keys].
  - intros Hin. apply elem_of_cons in Hin as [?|Hin]; [done|].
    apply list_elem_of_fmap in Hin as [q [[= ->] Hq]].
    by apply elem_of_Object_keys.
Qed.

(** ** The two versions of the dispatch logic (C10) *)

Lemma lib_allocate_cases (s : LibPool.Pool) (p : pid) :
  LibPool._allocate p s =
    match last (LibPool.tasks s) with
    | Some task =>
        (Normal tt, LibPool.set_tasks (removelast (A:=Task)) s,
         [emit "empty" None None; task_run p task])
    | None =>
        (Normal tt, LibPool.set_idle (cons p) s,
         if bool_decide (keys_length (LibPool.workers s)
                         = Z.of_nat (S (length (LibPool.idle s))))
         then [emit "drain" None None] else [])
    end.
Proof.
  unfold LibPool._allocate, LibPool._start. run_m.
  destruct (last (LibPool.tasks s)) as [task|] eqn:El.
  - assert (length (LibPool.tasks s) ≠ 0%nat) as Hlen
      by (destruct (LibPool.tasks s); [by cbn in El | cbn; lia]).
    rewrite (bool_decide_eq_true_2 _ Hlen). cbn.
    unfold Array.pop. by rewrite El.
  - apply last_None in El. rewrite El. cbn.
    rewrite bool_decide_eq_false_2 by (intros H; by apply H).
    unfold Array.unshift. cbn. by case_bool_decide.
Qed.

Lemma lib_run_deferred_cases (s : LibPool.Pool) (task : Task) (forked : pid) :
  LibPool.run_deferred task forked s =
    match last (LibPool.idle s) with
    | Some p =>
        (Normal tt, LibPool.set_idle (removelast (A:=pid)) s, [task_run p task])
    | None =>
        if bool_decide (keys_length (LibPool.workers s)
                        < LibPool.Options.workers (LibPool.options s))
        then (Normal tt,
              LibPool.set_workers (insert forked (LibPool.mkChild false false))
                (LibPool.set_tasks (cons task) s),
              [fork (LibPool.path s)
                 (LibPool.Options.arguments (LibPool.options s)) forked])
        else (Normal tt, LibPool.set_tasks (cons task) s,
              [emit "saturated" None None])
    end.
Proof.
  unfold LibPool.run_deferred, LibPool._spawn, LibPool._start. run_m.
  destruct (last (LibPool.idle s)) as [p|] eqn:El.
  - assert (length (LibPool.idle s) ≠ 0%nat) as Hlen
      by (destruct (LibPool.idle s); [by cbn in El | cbn; lia]).
    rewrite (bool_decide_eq_true_2 _ Hlen). unfold Array.pop. by rewrite El.
  - apply last_None in El. rewrite El. cbn.
    rewrite bool_decide_eq_false_2 by (intros H; by apply H).
    by case_bool_decide.
Qed.

Lemma keys_length_erase (w : gmap pid Child) :
  keys_length (erase_child <$> w) = keys_length w.
Proof. by rewrite !keys_length_size, map_size_fmap. Qed.

Lemma erase_count_task (w : gmap pid Child) (p : pid) (c : Child) :
  w !! p = Some c →
  erase_child <$> <[p := count_task c]> w = erase_child <$> w.
Proof.
  intros Hc. rewrite fmap_insert. apply insert_id.
  by rewrite lookup_fmap, Hc.
Qed.

Lemma erase_set_ready (w : gmap pid Child) (p : pid) :
  erase_child <$> alter mark_ready p w
  = alter (λ c, LibPool.mkChild true (LibPool.killed c)) p (erase_child <$> w).
Proof.
  apply map_eq. intros q. rewrite lookup_fmap, !lookup_alter, !lookup_fmap.
  case_decide; [|done]. by destruct (w !! p).
Qed.

Lemma lib_allocate_erase (s : Pool) (p : pid) :
  Options.maxTasksPerWorker (options s) <= 0 →
  is_Some (workers s !! p) →
  LibPool._allocate p (erase s) = erase_result (_allocate p s).
Proof.
  intros Hmax [c Hc]. rewrite lib_allocate_cases, (_allocate_tracked _ _ _ Hc).
  unfold rotation_due.
  rewrite (bool_decide_eq_false_2 (Options.maxTasksPerWorker (options s) > 0))
    by lia.
  cbn.
  destruct (last (tasks s)) as [task|]; unfold erase_result, erase; cbn.
  - by rewrite erase_count_task.
  - unfold drain_if_all_idle. cbn. by rewrite keys_length_erase.
Qed.

Lemma lib_handleWorkerDone_erase_cases (s : Pool) (p forked : pid) :
  Options.maxTasksPerWorker (options s) <= 0 →
  (if bool_decide (is_Some (LibPool.workers (erase s) !! p)) then
     LibPool._allocate p
   else if bool_decide (length (LibPool.tasks (erase s)) ≠ 0%nat) then
     LibPool._spawn forked;; mret tt
   else mret tt) (erase s)
  = erase_result (_handleWorkerDone p forked s).
Proof.
  intros Hmax. destruct (workers s !! p) as [c|] eqn:Hc.
  - rewrite bool_decide_eq_true_2
      by (cbn; rewrite lookup_fmap, Hc; by eexists).
    rewrite _handleWorkerDone_tracked by eauto.
    apply lib_allocate_erase; eauto.
  - rewrite bool_decide_eq_false_2
      by (cbn; rewrite lookup_fmap, Hc; by intros [? ?]).
    rewrite _handleWorkerDone_untracked by done. cbn.
    destruct (tasks s); cbn; [done|].
    unfold erase_result, spawned, erase. cbn. by rewrite fmap_insert.
Qed.

Lemma lib_handleWorkerDone_erase (s : Pool) (p forked : pid) :
  Options.maxTasksPerWorker (options s) <= 0 →
  (s0 ← get;
   if bool_decide (is_Some (LibPool.workers s0 !! p)) then
     LibPool._allocate p
   else if bool_decide (length (LibPool.tasks s0) ≠ 0%nat) then
     LibPool._spawn forked;; mret tt
   else mret tt) (erase s)
  = erase_result (_handleWorkerDone p forked s).
Proof.
  intros Hmax. erewrite bind_normal by reflexivity. cbv beta.
  rewrite (lib_handleWorkerDone_erase_cases s p forked Hmax).
  unfold erase_result. by destruct (_handleWorkerDone p forked s) as [[? ?] ?].
Qed.

Lemma lib_this_emit_erase (s : Pool) (type : string)
    (message : option string) (task : option Task) :
  LibPool.this_emit type message task (erase s)
  = erase_result (this_emit type message task s).
Proof.
  unfold LibPool.this_emit, this_emit, erase_result. run_m.
  by destruct (bool_decide (type = "error") && bool_decide ("error" ∉ _events s)).
Qed.

(** C10: with the rotation limit disabled ([maxTasksPerWorker <= 0]) the
    dispatch and allocation code of [src/lib/pool.js] and of
    [src/unnamed/part_000] do the same thing in every pool state: [run]
    makes the same task, and its deferred callback, [_allocate] on a
    tracked worker (the only way it is called), the readiness listener and
    the task callback end the same way, make the same calls in the same
    order and leave the same [workers], [idle] and [tasks]; the states
    differ only in the [_taskCount_] that [erase] forgets. *)
Theorem rotation_disabled_same_dispatch (s : Pool) :
  Options.maxTasksPerWorker (options s) <= 0 →
  (∀ command, (LibPool.run command).1 = (run command).1)
  ∧ (∀ task forked,
       LibPool.run_deferred task forked (erase s)
       = erase_result (run_deferred task forked s))
  ∧ (∀ p, is_Some (workers s !! p) →
       LibPool._allocate p (erase s) = erase_result (_allocate p s))
  ∧ (∀ p msg_type,
       LibPool.on_message p msg_type (erase s)
       = erase_result (on_message p msg_type s))
  ∧ (∀ p task type msg forked,
       LibPool.on_task_event p task type msg forked (erase s)
       = erase_result (on_task_event p task type msg forked s)).
Proof.
  intros Hmax. repeat split.
  - intros task forked. rewrite lib_run_deferred_cases, run_deferred_cases. cbn.
    destruct (last (idle s)) as [p|]; [done|].
    rewrite keys_length_erase. case_bool_decide; [|done].
    unfold erase_result, erase. cbn. by rewrite fmap_insert.
  - intros p. by apply lib_allocate_erase.
  - intros p ty. unfold LibPool.on_message, on_message. run_m.
    rewrite lookup_fmap. destruct (workers s !! p) as [c|] eqn:Hc; cbn; [|done].
    destruct (_ready_ c); cbn; [done|].
    unfold LibPool.readyListener, readyListener. case_bool_decide; [|done].
    set (s1 := set_workers (alter mark_ready p) s).
    assert (is_Some (workers s1 !! p)) as Hp
      by (cbn; rewrite lookup_alter, decide_True, Hc by done; by eexists).
    pose proof (lib_allocate_erase s1 p Hmax Hp) as Heq.
    erewrite !bind_normal by reflexivity.
    replace (LibPool.set_workers _ (erase s)) with (erase s1)
      by (unfold erase, s1; cbn; by rewrite erase_set_ready).
    rewrite Heq. fold s1. unfold erase_result.
    by destruct (_allocate p s1) as [[? ?] ?].
  - intros p task ty msg forked.
    unfold LibPool.on_task_event, on_task_event.
    destruct (bool_decide (ty = "end" ∨ ty = "error")).
    + pose proof (lib_handleWorkerDone_erase s p forked Hmax) as Heq.
      pose proof (_handleWorkerDone_normal s p forked) as Hn.
      destruct (_handleWorkerDone p forked s) as [[r s1] out] eqn:E.
      cbn in Hn. subst r.
      erewrite (bind_normal (_handleWorkerDone p forked)) by exact E.
      erewrite bind_normal by exact Heq.
      case_bool_decide; [done|].
      by rewrite lib_this_emit_erase, !this_emit_result.
    + erewrite !bind_normal by reflexivity.
      case_bool_decide; [done|].
      by rewrite lib_this_emit_erase, !this_emit_result.
Qed.

Lemma rotation_disabled_same_dispatch_witness :
  let s := mkPool "worker.js" (Options.mk 2 [] (-1))
             {[ 4%nat := mkChild true 3 false ]} [] [mkTask "b"; mkTask "a"] [] in
  LibPool._allocate 4 (erase s) = erase_result (_allocate 4 s)
  ∧ LibPool.run_deferred (mkTask "c") 5 (erase s)
    = erase_result (run_deferred (mkTask "c") 5 s).
Proof.
  intros s.
  destruct (rotation_disabled_same_dispatch s) as (_ & Hrun & Halloc & _).
  - cbn. lia.
  - split; [apply Halloc; by eexists | apply Hrun].
Defined.

(** ** Rotation (C2) *)

(** What the rotation does: a worker whose counter has reached the limit
    is killed by [_allocate] and gets no task; the counter is incremented
    only by [_allocate], for a task taken from the queue. *)
Lemma _allocate_retires_at_limit (s : Pool) (p : pid) (c : Child) :
  workers s !! p = Some c →
  Options.maxTasksPerWorker (options s) > 0 →
  _taskCount_ c >= Options.maxTasksPerWorker (options s) →
  _allocate p s = (Normal tt, set_workers (alter mark_killed p) s, [kill p]).
Proof.
  intros Hc Hmax Hcount. rewrite (_allocate_tracked _ _ _ Hc).
  unfold rotation_due. by rewrite !bool_decide_eq_true_2.
Qed.

Lemma run_deferred_keeps_counters (s : Pool) (task : Task) (forked p : pid) :
  is_Some (last (idle s)) →
  workers (run_deferred task forked s).1.2 !! p = workers s !! p.
Proof. intros [q Hq]. by rewrite run_deferred_cases, Hq. Qed.

(** C2 fails on the code: a pool of one worker with a rotation limit of 2
    is given three tasks, each submitted after the one before it has
    ended.  The first goes through the queue and is counted; the next two
    are started by the deferred callback of [run] on the idle worker, which
    does not count them: the worker is started on three tasks, its
    [_taskCount_] is 1 and it is never killed. *)
Lemma rotation_limit_not_enforced_on_idle_start :
  let pool := constructor "worker.js" (Options.mk 1 [] 2) in
  let a := mkTask "a" in
  let b := mkTask "b" in
  let c := mkTask "c" in
  let ins := [timeout a 1; message 1 "ready"; task_event 1 a "end" "" 2;
              timeout b 2; task_event 1 b "end" "" 2;
              timeout c 2; task_event 1 c "end" "" 2] in
  starts_on 1 (trace ins pool) = 3%nat
  ∧ (kill 1 ∉ trace ins pool)
  ∧ throws ins pool = []
  ∧ workers (exec ins pool) !! 1%nat = Some (mkChild true 1 false)
  ∧ idle (exec ins pool) = [1%nat].
Proof.
  vm_compute. repeat split.
  intros Hin. repeat (apply elem_of_cons in Hin as [Hin|Hin]; [discriminate|]).
  by apply elem_of_nil in Hin.
Qed.

(** ** The drain event (C3) *)

Lemma fully_idle_true (s : Pool) :
  fully_idle s = true
  ↔ (∀ p, is_Some (workers s !! p) → p ∈ idle s) ∧ tasks s = [].
Proof.
  unfold fully_idle. rewrite andb_true_iff, forallb_forall.
  rewrite bool_decide_eq_true. split; intros [Hall Hq]; (split; [|done]).
  - intros p Hp. specialize (Hall p). rewrite bool_decide_eq_true in Hall.
    apply Hall. by apply list_elem_of_In, elem_of_Object_keys.
  - intros p Hp. apply bool_decide_eq_true, Hall.
    by apply elem_of_Object_keys, list_elem_of_In.
Qed.

(** In a consistent pool the test of [_allocate], which compares the
    number of keys of [workers] with the length of [idle], decides whether
    every tracked worker is idle. *)
Lemma all_idle_iff_sizes (s : Pool) :
  wf s →
  keys_length (workers s) = Z.of_nat (length (idle s))
  ↔ ∀ p, is_Some (workers s !! p) → p ∈ idle s.
Proof.
  intros [Hnd Hsub]. rewrite keys_length_size.
  assert (list_to_set (idle s) ⊆ dom (workers s)) as Hincl.
  { intros p Hp. apply elem_of_list_to_set in Hp.
    apply elem_of_dom. destruct (Hsub p Hp) as (c & -> & _). by eexists. }
  assert (size (list_to_set (idle s) : gset pid) = length (idle s)) as Hsz
    by (by apply size_list_to_set).
  rewrite <-(size_dom (workers s)), <-Hsz. split.
  - intros Heq p Hp.
    apply (elem_of_list_to_set (C:=gset pid)).
    rewrite (set_subseteq_size_eq _ _ Hincl) by lia. by apply elem_of_dom.
  - intros Hall. f_equal. f_equal. apply set_eq. intros p. split.
    + rewrite elem_of_dom, elem_of_list_to_set. apply Hall.
    + apply Hincl.
Qed.

Lemma drains_app (out1 out2 : list Action) :
  drains (out1 ++ out2) = (drains out1 + drains out2)%nat.
Proof. unfold drains. by rewrite filter_app, length_app. Qed.

(** One allocation of a worker that is tracked and not idle. *)
Lemma _allocate_busy_worker (s : Pool) (p : pid) :
  wf s → (∃ c, workers s !! p = Some c ∧ _ready_ c = true) → p ∉ idle s →
  ∃ s' out,
    _allocate p s = (Normal tt, s', out)
    ∧ wf s'
    ∧ drains out = (if fully_idle s' then 1 else 0)%nat
    ∧ (idle s' = idle s ∨ idle s' = p :: idle s)
    ∧ (∀ q, (∃ c, workers s' !! q = Some c ∧ _ready_ c = true)
            ↔ (∃ c, workers s !! q = Some c ∧ _ready_ c = true))
    ∧ (∀ q, is_Some (workers s' !! q) ↔ is_Some (workers s !! q)).
Proof.
  intros Hwf (c & Hc & Hready) Hp. rewrite (_allocate_tracked _ _ _ Hc).
  assert (∀ s', is_Some (workers s' !! p) → p ∉ idle s' → fully_idle s' = false)
    as Hbusy.
  { intros s' Hp' Hn. apply not_true_is_false. rewrite fully_idle_true.
    intros [Hall _]. by apply Hn, Hall. }
  destruct (rotation_due s c); [|destruct (last (tasks s)) as [task|] eqn:El].
  - eexists _, _. split; [done|]. cbn.
    assert (∀ q, alter mark_killed p (workers s) !! q
                 = mark_killed <$> workers s !! q
                 ∨ alter mark_killed p (workers s) !! q = workers s !! q) as Hq.
    { intros q. rewrite lookup_alter. case_decide; [subst; by left | by right]. }
    assert (∀ q, (∃ c0, alter mark_killed p (workers s) !! q = Some c0
                        ∧ _ready_ c0 = true)
                 ↔ (∃ c0, workers s !! q = Some c0 ∧ _ready_ c0 = true)) as Hr.
    { intros q. destruct (Hq q) as [->| ->]; [|done].
      destruct (workers s !! q) as [c0|]; cbn; [|by split; intros (?&?&?)].
      split; intros (? & [= <-] & ?); eauto. }
    assert (∀ q, is_Some (alter mark_killed p (workers s) !! q)
                 ↔ is_Some (workers s !! q)) as Hs.
    { intros q. destruct (Hq q) as [->| ->]; [|done]. by rewrite fmap_is_Some. }
    repeat split; try (by apply Hr); try (by apply Hs); try (by left).
    + apply Hwf.
    + intros q Hq'. apply Hr. by apply Hwf.
    + rewrite Hbusy; [done | by apply Hs; eexists | done].
  - eexists _, _. split; [done|]. cbn.
    assert (∀ q, (∃ c0, <[p:=count_task c]> (workers s) !! q = Some c0
                        ∧ _ready_ c0 = true)
                 ↔ (∃ c0, workers s !! q = Some c0 ∧ _ready_ c0 = true)) as Hr.
    { intros q. destruct (decide (p = q)) as [<-|Hne].
      - rewrite lookup_insert_eq, Hc. split; intros _; eauto.
      - by rewrite lookup_insert_ne. }
    assert (∀ q, is_Some (<[p:=count_task c]> (workers s) !! q)
                 ↔ is_Some (workers s !! q)) as Hs.
    { intros q. destruct (decide (p = q)) as [<-|Hne].
      - rewrite lookup_insert_eq, Hc. split; intros _; eauto.
      - by rewrite lookup_insert_ne. }
    repeat split; try (by apply Hr); try (by apply Hs); try (by left).
    + apply Hwf.
    + intros q Hq'. apply Hr. by apply Hwf.
    + rewrite Hbusy; [done | by apply Hs; eexists | done].
  - eexists _, _. split; [done|].
    assert (wf (set_idle (cons p) s)) as Hwf'.
    { split; cbn.
      - apply NoDup_cons. split; [done | apply Hwf].
      - intros q [->|Hq]%elem_of_cons; [eauto | by apply Hwf]. }
    repeat split; try done; try (by right); try apply Hwf'.
    unfold drain_if_all_idle, drains.
    destruct (fully_idle (set_idle (cons p) s)) eqn:Hfi.
    + apply fully_idle_true in Hfi as [Hall _].
      apply (proj2 (all_idle_iff_sizes _ Hwf')) in Hall.
      by rewrite (bool_decide_eq_true_2 _ Hall).
    + case_bool_decide as Hsz; [|done]. exfalso.
      pose proof (proj1 (all_idle_iff_sizes _ Hwf') Hsz) as Hall.
      apply not_true_iff_false in Hfi. apply Hfi, fully_idle_true.
      split; [done|]. cbn. by apply last_None in El.
Qed.

Lemma occupied_not_fully_idle (s : Pool) (p : pid) :
  occupied s p → fully_idle s = false.
Proof.
  intros [Hn (c & Hc & _)]. apply not_true_is_false. rewrite fully_idle_true.
  intros [Hall _]. apply Hn, Hall. by eexists.
Qed.

(** Several workers handed to [_allocate] one after the other. *)
Lemma allocate_in_succession (ps : list pid) (s : Pool) :
  wf s → NoDup ps → (∀ p, p ∈ ps → occupied s p) →
  ∃ s' out,
    forEach ps _allocate s = (Normal tt, s', out)
    ∧ wf s'
    ∧ drains out = match ps with
                   | [] => 0%nat
                   | _ :: _ => if fully_idle s' then 1%nat else 0%nat
                   end
    ∧ (∀ q, q ∉ ps → occupied s q → occupied s' q).
Proof.
  revert s. induction ps as [|p ps IH]; intros s Hwf Hnd Hocc.
  - exists s, []. split; [done|]. split; [done|]. split; [done|]. by intros.
  - apply NoDup_cons in Hnd as [Hp Hnd].
    destruct (Hocc p) as [Hidle Hready]; [apply list_elem_of_here|].
    destruct (_allocate_busy_worker s p Hwf Hready Hidle)
      as (s1 & out1 & E1 & Hwf1 & Hd1 & Hi1 & Hr1 & _).
    assert (∀ q, q ≠ p → occupied s q → occupied s1 q) as Hkeep.
    { intros q Hne [Hq Hrq]. split; [|by apply Hr1].
      destruct Hi1 as [-> | ->]; [done|]. rewrite not_elem_of_cons. done. }
    destruct (IH s1 Hwf1 Hnd) as (s' & out2 & E2 & Hwf' & Hd2 & Hk2).
    { intros q Hq. apply Hkeep; [by intros -> | ].
      by apply Hocc, list_elem_of_further. }
    exists s', (out1 ++ out2). split; [|split; [done|split]].
    + cbn [forEach]. erewrite bind_normal by exact E1. by rewrite E2.
    + rewrite drains_app, Hd1, Hd2. destruct ps as [|q ps'].
      * cbn in E2. injection E2 as <- <-. lia.
      * rewrite (occupied_not_fully_idle s1 q); [done|].
        apply Hkeep; [intros ->; apply Hp, list_elem_of_here|].
        apply Hocc, list_elem_of_further, list_elem_of_here.
    + intros q Hq Hoq. apply not_elem_of_cons in Hq as [Hne Hq].
      apply Hk2; [done|]. by apply Hkeep.
Qed.

(** C3, as the code has it: when workers that were busy are handed to
    [_allocate] one after the other (each after its handshake or its task),
    [drain] is emitted once if the last of these allocations leaves the
    pool fully idle and not at all otherwise, and never by an allocation
    before the last one: there is one emission for the transition, not one
    per worker. *)
Theorem drain_once_when_allocation_makes_pool_idle (s : Pool) (ps : list pid) :
  wf s → NoDup ps → ps ≠ [] → (∀ p, p ∈ ps → occupied s p) →
  let r := forEach ps _allocate s in
  r.1.1 = Normal tt
  ∧ drains r.2 = (if fully_idle r.1.2 then 1 else 0)%nat
  ∧ drains (forEach (removelast ps) _allocate s).2 = 0%nat.
Proof.
  intros Hwf Hnd Hne Hocc.
  destruct (allocate_in_succession ps s Hwf Hnd Hocc)
    as (s' & out & E & _ & Hd & _).
  cbn zeta. rewrite E. cbn. split; [done|]. split; [by destruct ps|].
  destruct (last ps) as [p|] eqn:El; [|by apply last_None in El].
  apply last_Some in El as [ps1 ->]. rewrite removelast_last.
  apply NoDup_app in Hnd as (Hnd1 & Hdisj & _).
  destruct (allocate_in_succession ps1 s Hwf Hnd1)
    as (s1 & out1 & E1 & _ & Hd1 & Hkeep).
  { intros q Hq. apply Hocc, elem_of_app. by left. }
  rewrite E1. cbn [fst snd]. rewrite Hd1. destruct ps1 as [|q ps1']; [done|].
  rewrite (occupied_not_fully_idle s1 p); [done|]. apply Hkeep.
  - intros Hin. apply (Hdisj p Hin), list_elem_of_here.
  - apply Hocc, elem_of_app. right. apply list_elem_of_here.
Qed.

Lemma drain_once_when_allocation_makes_pool_idle_witness :
  let busy := mkChild true 1 false in
  let s := mkPool "worker.js" (Options.mk 3 [] (-1))
             {[ 1%nat := busy; 2%nat := busy; 3%nat := busy ]} [3%nat] [] [] in
  let r := forEach [1%nat; 2%nat] _allocate s in
  r.1.1 = Normal tt
  ∧ drains r.2 = (if fully_idle r.1.2 then 1 else 0)%nat
  ∧ drains (forEach (removelast [1%nat; 2%nat]) _allocate s).2 = 0%nat.
Proof.
  intros busy s.
  apply (drain_once_when_allocation_makes_pool_idle s [1%nat; 2%nat]).
  - split.
    + apply NoDup_singleton.
    + intros p Hp. apply list_elem_of_singleton in Hp as ->. by exists busy.
  - apply NoDup_cons. split; [|apply NoDup_singleton].
    by intros ?%list_elem_of_singleton.
  - done.
  - intros p Hp. apply elem_of_cons in Hp as [->|Hp];
      [|apply list_elem_of_singleton in Hp as ->].
    + split; [by intros ?%list_elem_of_singleton | by exists busy].
    + split; [by intros ?%list_elem_of_singleton | by exists busy].
Defined.

(** [cleanUpChild] never emits [drain], whatever it removes. *)
Lemma cleanUpChild_never_drains (s : Pool) (p : pid) (listeners : nat)
    (forked : pid) (err : string) :
  drains (cleanUpChild p listeners forked err s).2 = 0%nat.
Proof.
  destruct (workers s !! p) as [c|] eqn:Hc.
  - rewrite (cleanUpChild_tracked _ _ _ _ _ _ Hc). cbn zeta.
    repeat case_match; done.
  - unfold cleanUpChild. run_m. by rewrite Hc.
Qed.

(** C3 as stated fails for a transition that no allocation makes: worker 1
    crashes while worker 2 is idle and the queue is empty.  The exit
    handler removes worker 1 and hands the error to the listener of its
    task; every tracked worker is then idle, and no [drain] was emitted:
    not before, not by this step, and not when the task reports the
    error (to a pool whose owner listens for ['error']). *)
Lemma fully_idle_after_exit_without_drain :
  let pool := constructor "worker.js" (Options.mk 2 [] (-1)) in
  let a := mkTask "a" in
  let b := mkTask "b" in
  let ins := [listen "error"; timeout a 1; timeout b 2; message 1 "ready";
              message 2 "ready"; task_event 2 b "end" "" 3] in
  let s := exec ins pool in
  let crash := exit 1 (Some 1) "" 1 3 in
  let failed := task_event 1 a "error" "Worker exited with code 1" 3 in
  fully_idle s = false
  ∧ fully_idle (next s crash) = true
  ∧ idle (next s crash) = [2%nat]
  ∧ output s crash
    = [listener_call 1 "error" "Worker exited with code 1"]
  ∧ drains (trace (ins ++ [crash; failed]) pool) = 0%nat
  ∧ throws (ins ++ [crash; failed]) pool = []
  ∧ all_expected (ins ++ [crash; failed]) pool.
Proof.
  vm_compute. repeat split; try done.
  - match goal with H : Some _ = Some _ |- _ => by injection H as <- end.
  - intros Hin. by apply elem_of_nil in Hin.
Qed.

(** ** The queue (C1) *)

Lemma started_tasks_app (out1 out2 : list Action) :
  started_tasks (out1 ++ out2) = started_tasks out1 ++ started_tasks out2.
Proof. apply omap_app. Qed.

Lemma _allocate_takes_oldest (s : Pool) (p : pid) :
  is_Some (workers s !! p) →
  started_tasks (_allocate p s).2 ++ reverse (tasks (_allocate p s).1.2)
  = reverse (tasks s).
Proof.
  intros [c Hc]. rewrite (_allocate_tracked _ _ _ Hc).
  destruct (rotation_due s c); [done|].
  destruct (last (tasks s)) as [task|] eqn:El; cbn.
  - apply last_Some in El as [q ->].
    by rewrite removelast_last, reverse_snoc.
  - unfold drain_if_all_idle. by case_bool_decide.
Qed.

Lemma _handleWorkerDone_takes_oldest (s : Pool) (p forked : pid) :
  started_tasks (_handleWorkerDone p forked s).2
    ++ reverse (tasks (_handleWorkerDone p forked s).1.2)
  = reverse (tasks s).
Proof.
  destruct (workers s !! p) as [c|] eqn:Hc.
  - rewrite _handleWorkerDone_tracked by eauto.
    apply _allocate_takes_oldest. eauto.
  - rewrite _handleWorkerDone_untracked by done.
    destruct (tasks s) eqn:E; cbn; by rewrite ?E.
Qed.

Lemma cleanUpChild_keeps_queue (s : Pool) (p : pid) (listeners : nat)
    (forked : pid) (err : string) :
  started_tasks (cleanUpChild p listeners forked err s).2 = []
  ∧ tasks (cleanUpChild p listeners forked err s).1.2 = tasks s.
Proof.
  destruct (workers s !! p) as [c|] eqn:Hc.
  - rewrite (cleanUpChild_tracked _ _ _ _ _ _ Hc). cbn.
    destruct (bool_decide (p ∈ idle s)); [done|].
    destruct (_ready_ c); [|done]. cbn.
    destruct (bool_decide (listeners ≠ 0%nat)); [done|].
    destruct (tasks s) eqn:E, (killed c); cbn; by rewrite ?E.
  - unfold cleanUpChild. run_m. by rewrite Hc.
Qed.

Lemma queue_step (s : Pool) (i : Input) :
  i ≠ shutdown →
  dequeued_by s i ++ reverse (tasks (next s i))
  = reverse (tasks s) ++ queued_by s i.
Proof.
  intros Hi. unfold next, output, dequeued_by, output.
  destruct i as [task f|p ty|p code sig l f|p e l f|p task ty msg f| |lty];
    cbn [handle queued_by]; try done.
  - rewrite run_deferred_cases.
    destruct (last (idle s)) as [p|] eqn:El.
    + rewrite bool_decide_eq_false_2 by (intros E; by rewrite E in El).
      cbn. by rewrite app_nil_r.
    + apply last_None in El. rewrite (bool_decide_eq_true_2 _ El).
      case_bool_decide; cbn -[reverse]; by rewrite reverse_cons.
  - rewrite app_nil_r.
    destruct (on_message_cases s p ty) as [-> | (c & Hc & _ & _ & ->)]; [done|].
    apply (_allocate_takes_oldest (set_workers (alter mark_ready p) s)).
    cbn. rewrite lookup_alter, decide_True, Hc by done. by eexists.
  - rewrite app_nil_r. unfold on_exit.
    by destruct (cleanUpChild_keeps_queue s p l f
                   match code with
                   | Some code => "Worker exited with code " +:+ pretty code
                   | None => "Worker exited due to signal " +:+ sig
                   end) as [-> ->].
  - rewrite app_nil_r. unfold on_error.
    by destruct (cleanUpChild_keeps_queue s p l f e) as [-> ->].
  - rewrite app_nil_r, on_task_event_cases. cbn [fst snd].
    rewrite started_tasks_app.
    replace (started_tasks [proxied task ty msg]) with (@nil Task)
      by (unfold proxied; by case_bool_decide).
    rewrite app_nil_r. case_bool_decide; [|done].
    apply _handleWorkerDone_takes_oldest.
  - by rewrite app_nil_r.
Qed.

(** [_allocate] on a tracked worker below the rotation limit, with a task
    queued: it takes the oldest one (the last of the array) off the queue
    and starts it on the worker. *)
Lemma _allocate_dequeues (s : Pool) (p : pid) (c : Child) :
  workers s !! p = Some c →
  rotation_due s c = false →
  tasks s ≠ [] →
  ∃ task rest,
    tasks s = rest ++ [task]
    ∧ _allocate p s =
        (Normal tt,
         set_tasks (λ _, rest) (set_workers (insert p (count_task c)) s),
         [emit "empty" None None; task_run p task]).
Proof.
  intros Hc Hdue Hne. rewrite (_allocate_tracked _ _ _ Hc), Hdue.
  destruct (last (tasks s)) as [task|] eqn:El.
  - apply last_Some in El as [rest El]. exists task, rest. split; [done|].
    unfold set_tasks. cbn. by rewrite El, removelast_last.
  - by apply last_None in El.
Qed.

(** C1, as the code has it.  Over any sequence of inputs without a
    [drain()] call, the tasks started from the queue, followed by the tasks
    still queued from oldest to newest, are the tasks that were queued, in
    the order in which they were queued: [run] keeps the submission order
    and the k-th task started from the queue is the k-th task that was
    queued.  And in the state so reached, whenever [_allocate] is called on
    a tracked worker that has not reached the rotation limit while the
    queue is not empty, it removes the oldest still-queued task (the one
    queued at position [length (dequeued ins s)]), counts it and starts it
    on that worker; so do the two callers of [_allocate], the completion of
    a task (its [end] or [error] event) and the readiness message of the
    worker. *)
Theorem queue_is_fifo (ins : list Input) (s : Pool) :
  shutdown ∉ ins →
  dequeued ins s ++ reverse (tasks (exec ins s))
  = reverse (tasks s) ++ queued ins s
  ∧ (tasks s = [] →
     ∀ k task, dequeued ins s !! k = Some task → queued ins s !! k = Some task)
  ∧ (∀ p c,
       workers (exec ins s) !! p = Some c →
       rotation_due (exec ins s) c = false →
       tasks (exec ins s) ≠ [] →
       ∃ task rest,
         tasks (exec ins s) = rest ++ [task]
         ∧ (tasks s = [] →
            queued ins s !! length (dequeued ins s) = Some task)
         ∧ _allocate p (exec ins s) =
             (Normal tt,
              set_tasks (λ _, rest)
                (set_workers (insert p (count_task c)) (exec ins s)),
              [emit "empty" None None; task_run p task])
         ∧ (∀ finished type msg forked,
              type = "end" ∨ type = "error" →
              let i := task_event p finished type msg forked in
              output (exec ins s) i
              = [emit "empty" None None; task_run p task; proxied finished type msg]
              ∧ tasks (next (exec ins s) i) = rest)
         ∧ (_ready_ c = false →
            output (exec ins s) (message p "ready")
            = [emit "empty" None None; task_run p task]
            ∧ tasks (next (exec ins s) (message p "ready")) = rest)).
Proof.
  intros Hins.
  assert (dequeued ins s ++ reverse (tasks (exec ins s))
          = reverse (tasks s) ++ queued ins s) as Heq.
  { revert s. induction ins as [|i ins IH]; intros s; cbn.
    - by rewrite app_nil_r.
    - apply not_elem_of_cons in Hins as [Hi Hins].
      rewrite <-app_assoc, (IH Hins), !app_assoc. f_equal.
      apply queue_step. congruence. }
  split; [done|]. split.
  { intros Hempty k task Hk.
    rewrite Hempty in Heq. cbn in Heq. rewrite <-Heq.
    by apply lookup_app_l_Some. }
  intros p c Hc Hdue Hne.
  destruct (_allocate_dequeues _ p c Hc Hdue Hne) as (task & rest & Ht & Ha).
  exists task, rest. split; [done|]. split; [|split; [done|split]].
  - intros Hempty. rewrite Ht, Hempty, reverse_snoc in Heq. cbn in Heq.
    rewrite <-Heq. by apply list_lookup_middle.
  - intros finished type msg forked Hty i. unfold output, next, i. cbn [handle].
    rewrite on_task_event_cases.
    rewrite (bool_decide_eq_true_2 _ Hty).
    rewrite _handleWorkerDone_tracked by eauto. by rewrite Ha.
  - intros Hr. unfold output, next. cbn [handle].
    destruct (on_message_cases (exec ins s) p "ready")
      as [Hnone | (c' & Hc' & _ & _ & ->)].
    + exfalso. unfold on_message in Hnone.
      erewrite bind_normal in Hnone by reflexivity. cbv beta in Hnone.
      rewrite Hc, Hr in Hnone. unfold readyListener in Hnone.
      rewrite bool_decide_eq_true_2 in Hnone by done.
      erewrite bind_normal in Hnone by reflexivity.
      set (s1 := set_workers (alter mark_ready p) (exec ins s)) in *.
      assert (workers s1 !! p = Some (mark_ready c)) as Hc1
        by (unfold s1; cbn; by rewrite lookup_alter, decide_True, Hc).
      destruct (_allocate_dequeues s1 p (mark_ready c) Hc1 Hdue Hne)
        as (task1 & rest1 & _ & Ha1).
      unfold mark_ready in Hnone. fold s1 in Hnone.
      rewrite Ha1 in Hnone. discriminate.
    + set (s1 := set_workers (alter mark_ready p) (exec ins s)).
      assert (workers s1 !! p = Some (mark_ready c)) as Hc1
        by (unfold s1; cbn; by rewrite lookup_alter, decide_True, Hc).
      destruct (_allocate_dequeues s1 p (mark_ready c) Hc1 Hdue Hne)
        as (task1 & rest1 & Ht1 & ->).
      cbn in Ht1. rewrite Ht in Ht1.
      apply app_inj_tail in Ht1 as [-> ->]. done.
Qed.

Lemma queue_is_fifo_witness :
  let pool := constructor "worker.js" (Options.mk 1 [] 2) in
  let a := mkTask "a" in
  let b := mkTask "b" in
  let c := mkTask "c" in
  let ins := [timeout a 1; timeout b 2; timeout c 2; message 1 "ready"] in
  let s := exec ins pool in
  let i := task_event 1 a "end" "" 2 in
  dequeued ins pool ++ reverse (tasks s) = reverse (tasks pool) ++ queued ins pool
  ∧ dequeued ins pool = [a]
  ∧ queued ins pool = [a; b; c]
  ∧ tasks s = [c; b]
  ∧ _allocate 1 s =
      (Normal tt,
       set_tasks (λ _, [c]) (set_workers (insert 1%nat (mkChild true 2 false)) s),
       [emit "empty" None None; task_run 1 b])
  ∧ output s i
    = [emit "empty" None None; task_run 1 b; emit "end" (Some "") (Some a)]
  ∧ tasks (next s i) = [c].
Proof.
  intros pool a b c ins s i.
  destruct (queue_is_fifo ins pool) as (Heq & _ & Hnext).
  - intros Hin.
    repeat (apply elem_of_cons in Hin as [Hin|Hin]; [discriminate|]).
    by apply elem_of_nil in Hin.
  - destruct (Hnext 1%nat (mkChild true 1 false))
      as (task & rest & Ht & _ & Ha & Hend & _); [done..|].
    change (tasks (exec ins pool)) with ([c] ++ [b]) in Ht.
    apply app_inj_tail in Ht as [<- <-].
    destruct (Hend a "end" "" 2%nat) as [Hout Hrest]; [by left|].
    split; [exact Heq|]. do 3 (split; [vm_compute; reflexivity|]).
    split; [exact Ha|]. split; [exact Hout | exact Hrest].
Defined.

(** C1 as stated fails at the rotation limit: with a limit of one task per
    worker, the worker that has completed its task is killed by
    [_allocate] although a task is queued; the task stays in the queue
    until the replacement worker is ready. *)
Lemma allocate_at_limit_leaves_queue :
  let pool := constructor "worker.js" (Options.mk 1 [] 1) in
  let a := mkTask "a" in
  let b := mkTask "b" in
  let s := exec [timeout a 1; timeout b 2; message 1 "ready"] pool in
  let i := task_event 1 a "end" "" 3 in
  tasks s = [b]
  ∧ workers s !! 1%nat = Some (mkChild true 1 false)
  ∧ _allocate 1 s = (Normal tt, set_workers (alter mark_killed 1%nat) s, [kill 1])
  ∧ output s i = [kill 1; emit "end" (Some "") (Some a)]
  ∧ tasks (next s i) = [b]
  ∧ started_tasks (output s i) = [].
Proof. vm_compute. repeat split; reflexivity. Qed.

(** ** The idle list (C7) *)

Lemma indexOf_lookup {A} `{EqDecision A} (x : A) (a : list A) :
  x ∈ a → a !! Z.to_nat (Array.indexOf x a) = Some x.
Proof.
  induction a as [|y a IH]; [by intros ?%elem_of_nil|].
  intros Hin. cbn [Array.indexOf]. destruct (decide (x = y)) as [->|Hne]; [done|].
  apply elem_of_cons in Hin as [?|Hin]; [done|].
  destruct (decide (Array.indexOf x a = -1)) as [E|E].
  - by apply indexOf_absent in E.
  - destruct (indexOf_range x a) as [?|Hge]; [done|].
    replace (Z.to_nat (Array.indexOf x a + 1))
      with (S (Z.to_nat (Array.indexOf x a))) by lia.
    by apply IH.
Qed.

Lemma splice1_removes (p : pid) (l : list pid) :
  NoDup l → p ∈ l → p ∉ Array.splice1 (Array.indexOf p l) l.
Proof.
  intros Hnd Hin. unfold Array.splice1.
  pose proof (indexOf_lookup p l Hin) as Hl.
  rewrite delete_take_drop.
  rewrite <-(take_drop_middle l _ p Hl) in Hnd.
  apply NoDup_app in Hnd as (_ & Hleft & Hright).
  apply NoDup_cons in Hright as [Hright _].
  rewrite elem_of_app. intros [H|H]; [|done].
  apply (Hleft p H), list_elem_of_here.
Qed.

Lemma removelast_sublist {A} (l : list A) : removelast l `sublist_of` l.
Proof. rewrite removelast_firstn_len. apply sublist_take. Qed.

Lemma StronglySorted_sublist_impl {A} (R R' : relation A) (l' l : list A) :
  l' `sublist_of` l →
  (∀ x y, x ∈ l' → y ∈ l' → R x y → R' x y) →
  StronglySorted R l → StronglySorted R' l'.
Proof.
  induction 1 as [|x l1 l2 Hsub IH|x l1 l2 Hsub IH]; intros Himpl Hs.
  - constructor.
  - apply StronglySorted_inv in Hs as [Hs Hall]. constructor.
    + apply IH; [|done]. intros y z Hy Hz. apply Himpl; by apply list_elem_of_further.
    + apply Forall_forall. intros y Hy.
      apply Himpl; [apply list_elem_of_here | by apply list_elem_of_further |].
      rewrite Forall_forall in Hall. apply Hall. by eapply elem_of_sublist.
  - apply StronglySorted_inv in Hs as [Hs _]. by apply IH.
Qed.

Lemma idle_order_step (s s' : Pool) (past : list Pool) :
  idle_change (idle s) (idle s') →
  StronglySorted (λ q p, (idle_time q (s :: past) ≤ idle_time p (s :: past))%nat)
    (idle s) →
  StronglySorted
    (λ q p, (idle_time q (s' :: s :: past) ≤ idle_time p (s' :: s :: past))%nat)
    (idle s').
Proof.
  intros Hch Hs.
  assert (∀ x, x ∈ idle s' →
            idle_time x (s' :: s :: past) = S (idle_time x (s :: past))) as Hin.
  { intros x Hx. cbn [idle_time]. by rewrite (bool_decide_eq_true_2 _ Hx). }
  destruct Hch as [Hsub | (p & Hp & Heq)].
  - eapply StronglySorted_sublist_impl; [exact Hsub| |exact Hs].
    intros x y Hx Hy Hxy. cbv beta in *. rewrite (Hin x Hx), (Hin y Hy). lia.
  - rewrite Heq. constructor.
    + eapply StronglySorted_sublist_impl; [reflexivity| |exact Hs].
      intros x y Hx Hy Hxy. cbv beta in *.
      rewrite (Hin x), (Hin y) by (rewrite Heq; by apply list_elem_of_further). lia.
    + apply Forall_forall. intros y Hy.
      rewrite (Hin p), (Hin y)
        by (rewrite Heq; [apply list_elem_of_here || by apply list_elem_of_further]).
      cbn [idle_time]. rewrite (bool_decide_eq_false_2 _ Hp).
      rewrite (bool_decide_eq_true_2 _ Hy). lia.
Qed.

Lemma wf_shrink (s s' : Pool) :
  wf s →
  idle s' `sublist_of` idle s →
  (∀ q c, q ∈ idle s' → workers s !! q = Some c → _ready_ c = true →
          ∃ c', workers s' !! q = Some c' ∧ _ready_ c' = true) →
  wf s'.
Proof.
  intros [Hnd Hready] Hsub Hkeep. split.
  - by eapply sublist_NoDup.
  - intros q Hq. destruct (Hready q) as (c & Hc & Hr); [by eapply elem_of_sublist|].
    by eapply Hkeep.
Qed.

Lemma _handleWorkerDone_step (s : Pool) (p forked : pid) :
  wf s → workers s !! forked = None →
  (∀ c, workers s !! p = Some c → _ready_ c = true ∧ p ∉ idle s) →
  wf (_handleWorkerDone p forked s).1.2
  ∧ idle_change (idle s) (idle (_handleWorkerDone p forked s).1.2).
Proof.
  intros Hwf Hfresh Hbusy. destruct (workers s !! p) as [c|] eqn:Hc.
  - rewrite _handleWorkerDone_tracked by eauto.
    destruct (Hbusy c eq_refl) as [Hr Hidle].
    destruct (_allocate_busy_worker s p Hwf) as (s' & out & E & Hwf' & _ & Hi & _);
      [eauto | done |].
    rewrite E. cbn. split; [done|]. destruct Hi as [-> | ->].
    + by left.
    + right. eauto.
  - rewrite _handleWorkerDone_untracked by done.
    assert (wf (set_workers (insert forked fresh_child) s)) as Hwf'.
    { apply (wf_shrink s); [done | done |]. cbn. intros q c' Hq Hc' Hr.
      exists c'. split; [|done]. rewrite lookup_insert_ne; [done|]. congruence. }
    destruct (tasks s); cbn; (split; [done | by left]).
Qed.

Lemma cleanUpChild_step (s : Pool) (p : pid) (listeners : nat)
    (forked : pid) (err : string) :
  wf s → workers s !! forked = None →
  wf (cleanUpChild p listeners forked err s).1.2
  ∧ idle (cleanUpChild p listeners forked err s).1.2 `sublist_of` idle s.
Proof.
  intros Hwf Hfresh. destruct (workers s !! p) as [c|] eqn:Hc.
  - rewrite (cleanUpChild_tracked _ _ _ _ _ _ Hc). cbn zeta.
    assert (∀ s', idle s' = idle s →
              (workers s' = delete p (workers s)
               ∨ workers s' = <[forked:=fresh_child]> (delete p (workers s))) →
              p ∉ idle s → wf s' ∧ idle s' `sublist_of` idle s) as Hsame.
    { intros s' Hi Hw Hp. split; [|by rewrite Hi].
      apply (wf_shrink s); [done | by rewrite Hi |].
      intros q c' Hq Hc' Hr. exists c'. split; [|done].
      assert (q ≠ p) by (intros ->; by rewrite Hi in Hq).
      assert (q ≠ forked) by congruence.
      destruct Hw as [-> | ->]; rewrite ?lookup_insert_ne by done;
        by rewrite lookup_delete_ne. }
    case_bool_decide as Hin.
    + cbn. split; [|apply sublist_delete].
      apply (wf_shrink s); [done | apply sublist_delete |]. cbn.
      intros q c' Hq Hc' Hr. exists c'. split; [|done].
      rewrite lookup_delete_ne; [done|]. intros ->.
      by apply (splice1_removes q (idle s) (proj1 Hwf) Hin).
    + destruct (_ready_ c); cbn [negb];
        [|by apply (Hsame (set_workers (delete p) s)); [|left|]].
      case_bool_decide; [by apply (Hsame (set_workers (delete p) s)); [|left|]|].
      destruct (tasks s).
      * by apply (Hsame (set_workers (delete p) s)); [|left|].
      * by apply (Hsame (set_workers (insert forked fresh_child)
                           (set_workers (delete p) s))); [|right|].
  - unfold cleanUpChild. run_m. rewrite Hc. by cbn.
Qed.

Lemma step_keeps_wf (s : Pool) (i : Input) :
  wf s → expected s i →
  wf (next s i) ∧ idle_change (idle s) (idle (next s i)).
Proof.
  intros Hwf Hexp. unfold next.
  destruct i as [task f|p ty|p code sig l f|p e l f|p task ty msg f| |lty];
    cbn [handle expected] in *.
  - rewrite run_deferred_cases. destruct (last (idle s)) as [p|] eqn:El.
    + cbn. split; [|left; apply removelast_sublist].
      apply (wf_shrink s); [done | apply removelast_sublist | eauto].
    + assert (∀ s', idle s' = idle s →
                (workers s' = workers s
                 ∨ workers s' = <[f:=fresh_child]> (workers s)) →
                wf s' ∧ idle_change (idle s) (idle s')) as Hsame.
      { intros s' Hi Hw. split; [|left; by rewrite Hi].
        apply (wf_shrink s); [done | by rewrite Hi |].
        intros q c' Hq Hc' Hr. exists c'. split; [|done].
        destruct Hw as [-> | ->]; [done|].
        rewrite lookup_insert_ne; [done | congruence]. }
      case_bool_decide.
      * by apply (Hsame (set_workers (insert f fresh_child)
                           (set_tasks (cons task) s))); [|right].
      * by apply (Hsame (set_tasks (cons task) s)); [|left].
  - destruct (on_message_cases s p ty) as [-> | (c & Hc & Hr & _ & ->)].
    + cbn. split; [done | by left].
    + set (s1 := set_workers (alter mark_ready p) s).
      assert (p ∉ idle s) as Hp.
      { intros Hin. destruct (proj2 Hwf p Hin) as (c' & Hc' & Hr'). congruence. }
      assert (wf s1) as Hwf1.
      { apply (wf_shrink s); [done | done |]. cbn. intros q c' _ Hc' Hr'.
        rewrite lookup_alter. case_decide; [subst|eauto].
        rewrite Hc'. cbn. eauto. }
      destruct (_allocate_busy_worker s1 p Hwf1) as (s' & out & E & Hwf' & _ & Hi & _).
      { exists (mark_ready c). split; [|done]. cbn.
        by rewrite lookup_alter, decide_True, Hc. }
      { done. }
      rewrite E. cbn. split; [done|]. destruct Hi as [-> | ->].
      * by left.
      * right. eauto.
  - unfold on_exit. destruct (cleanUpChild_step s p l f
      match code with
      | Some code => "Worker exited with code " +:+ pretty code
      | None => "Worker exited due to signal " +:+ sig
      end Hwf Hexp) as [? ?]. split; [done | by left].
  - unfold on_error.
    destruct (cleanUpChild_step s p l f e Hwf Hexp) as [? ?].
    split; [done | by left].
  - rewrite on_task_event_cases. cbn [fst snd]. destruct Hexp as [Hfresh Hbusy].
    case_bool_decide as Hty.
    + by apply _handleWorkerDone_step; [| |apply Hbusy].
    + cbn. split; [done | by left].
  - rewrite drain_result. cbn. split; [|by left].
    apply (wf_shrink s); [done | done |]. cbn. intros q c' _ Hc' Hr.
    exists (mark_killed c'). split; [|done]. by rewrite lookup_fmap, Hc'.
  - cbn. split; [done | by left].
Qed.

Lemma StronglySorted_all_related {A} (R : relation A) (l : list A) :
  (∀ x y, x ∈ l → y ∈ l → R x y) → StronglySorted R l.
Proof.
  induction l as [|x l IH]; intros HR; constructor.
  - apply IH. intros y z Hy Hz. apply HR; by apply list_elem_of_further.
  - apply Forall_forall. intros y Hy.
    apply HR; [apply list_elem_of_here | by apply list_elem_of_further].
Qed.

Lemma run_from_invariant (s0 s : Pool) (past : list Pool) :
  wf s0 → run_from s0 past s →
  wf s
  ∧ StronglySorted
      (λ q p, (idle_time q (s :: past) ≤ idle_time p (s :: past))%nat) (idle s).
Proof.
  intros Hwf0. induction 1 as [|past s i Hrun [Hwf Hs] Hexp].
  - split; [done|]. apply StronglySorted_all_related.
    intros x y Hx Hy. cbn.
    by rewrite (bool_decide_eq_true_2 _ Hx), (bool_decide_eq_true_2 _ Hy).
  - destruct (step_keeps_wf s i Hwf Hexp) as [Hwf' Hch].
    split; [done|]. by apply idle_order_step.
Qed.

(** The invariant of the data model holds in every state of a run. *)
Lemma run_from_wf (s0 s : Pool) (past : list Pool) :
  wf s0 → run_from s0 past s → wf s.
Proof. intros Hwf0 Hrun. by destruct (run_from_invariant s0 s past Hwf0 Hrun). Qed.

Lemma run_from_inputs (s0 s : Pool) (past : list Pool) (ins : list Input) :
  run_from s0 past s → all_expected ins s →
  run_from s0 (visited ins past s) (exec ins s).
Proof.
  revert past s. induction ins as [|i ins IH]; intros past s Hrun Hexp; [done|].
  destruct Hexp as [Hi Hexp]. cbn. apply IH; [|done]. by constructor.
Qed.

(** C7: in a pool that went through expected inputs, when the deferred
    callback of [run] finds an idle worker it starts the task on the last
    element of [idle], and no worker in [idle] has been idle for longer
    than that one: [_allocate] puts a worker that becomes idle in front,
    [run] takes from the back, and [cleanUpChild] removes from the middle
    without reordering. *)
Theorem run_starts_on_longest_idle (s0 s : Pool) (past : list Pool)
    (task : Task) (forked : pid) :
  wf s0 → run_from s0 past s → idle s ≠ [] →
  ∃ p, last (idle s) = Some p
       ∧ run_deferred task forked s
         = (Normal tt, set_idle (removelast (A:=pid)) s, [task_run p task])
       ∧ ∀ q, q ∈ idle s →
              (idle_time q (s :: past) ≤ idle_time p (s :: past))%nat.
Proof.
  intros Hwf0 Hrun Hne.
  destruct (run_from_invariant s0 s past Hwf0 Hrun) as [_ Hsorted].
  destruct (last (idle s)) as [p|] eqn:El; [|by apply last_None in El].
  exists p. split; [done|]. split.
  - by rewrite run_deferred_cases, El.
  - apply last_Some in El as [l El]. rewrite El in Hsorted |- *.
    intros q [Hq|Hq]%elem_of_app.
    + eapply (StronglySorted_app_1_elem_of _ l [p] q p Hsorted); [done|].
      apply list_elem_of_here.
    + by apply list_elem_of_singleton in Hq as ->.
Qed.

Lemma run_starts_on_longest_idle_witness :
  let pool := constructor "worker.js" (Options.mk 2 [] (-1)) in
  let a := mkTask "a" in
  let b := mkTask "b" in
  let ins := [timeout a 1; timeout b 2; message 1 "ready"; message 2 "ready";
              task_event 1 a "end" "" 3; task_event 2 b "end" "" 3] in
  let s := exec ins pool in
  let past := visited ins [] pool in
  idle s = [2%nat; 1%nat]
  ∧ ∃ p, last (idle s) = Some p
         ∧ run_deferred (mkTask "c") 3 s
           = (Normal tt, set_idle (removelast (A:=pid)) s,
              [task_run p (mkTask "c")])
         ∧ ∀ q, q ∈ idle s →
                (idle_time q (s :: past) ≤ idle_time p (s :: past))%nat.
Proof.
  intros pool a b ins s past. split; [reflexivity|].
  apply (run_starts_on_longest_idle pool s past (mkTask "c") 3).
  - split; [constructor | by intros p ?%elem_of_nil].
  - apply run_from_inputs; [constructor|].
    repeat split; try (vm_compute; reflexivity);
      match goal with
      | H : _ !! _ = Some _ |- _ => vm_compute in H; injection H as <-
      end;
      first [reflexivity | apply (bool_decide_unpack _); vm_compute; exact I].
  - discriminate.
Defined.

(** * More of the pool *)

(** ** The handlers in direct style *)

Lemma completed_handleWorkerDone (s : Pool) (p forked : pid) :
  _handleWorkerDone p forked s = completed s p forked.
Proof.
  unfold completed. destruct (workers s !! p) as [c|] eqn:Hc.
  - rewrite _handleWorkerDone_tracked by eauto. by apply _allocate_tracked.
  - by rewrite _handleWorkerDone_untracked.
Qed.

Lemma cleaned_cleanUpChild (s : Pool) (p : pid) (listeners : nat)
    (forked : pid) (err : string) :
  cleanUpChild p listeners forked err s = cleaned s p listeners forked err.
Proof.
  unfold cleaned. destruct (workers s !! p) as [c|] eqn:Hc.
  - by apply cleanUpChild_tracked.
  - unfold cleanUpChild. run_m. by rewrite Hc.
Qed.

Lemma handle_direct (s : Pool) (i : Input) : handle i s = direct s i.
Proof.
  destruct i as [task f|p ty|p code sig l f|p e l f|p task ty msg f| |lty];
    cbn [handle direct].
  - apply run_deferred_cases.
  - unfold on_message. erewrite bind_normal by reflexivity. cbv beta.
    destruct (workers s !! p) as [c|] eqn:Hc; [|done].
    destruct (_ready_ c); [done|]. unfold readyListener.
    case_bool_decide; [|done]. erewrite bind_normal by reflexivity.
    rewrite (_allocate_tracked _ _ (mark_ready c))
      by (cbn; by rewrite lookup_alter, decide_True, Hc).
    unfold allocated. by repeat case_match.
  - apply cleaned_cleanUpChild.
  - apply cleaned_cleanUpChild.
  - rewrite on_task_event_cases. by rewrite completed_handleWorkerDone.
  - apply drain_result.
  - done.
Qed.

Lemma next_direct (s : Pool) (i : Input) : next s i = (direct s i).1.2.
Proof. unfold next. by rewrite handle_direct. Qed.

Lemma output_direct (s : Pool) (i : Input) : output s i = (direct s i).2.
Proof. unfold output. by rewrite handle_direct. Qed.

(** Case analysis on what a handler returns. *)
Ltac handler_cases :=
  unfold cleaned, completed, allocated, noop, spawned, drain_if_all_idle;
  repeat case_match; cbn [fst snd].

(** ** The configuration *)

Lemma next_options (s : Pool) (i : Input) :
  options (next s i) = options s ∧ path (next s i) = path s.
Proof.
  rewrite next_direct. destruct i; cbn [direct]; handler_cases; done.
Qed.

Lemma exec_options (ins : list Input) (s : Pool) :
  options (exec ins s) = options s ∧ path (exec ins s) = path s.
Proof.
  revert s. induction ins as [|i ins IH]; intros s; [done|]. cbn [exec].
  destruct (IH (next s i)) as [-> ->]. apply next_options.
Qed.

(** ** No task is lost *)

Lemma submitted_cons (i : Input) (ins : list Input) :
  submitted (i :: ins) = submitted_by i ++ submitted ins.
Proof. done. Qed.

Lemma conserved_step (s : Pool) (i : Input) :
  i ≠ shutdown →
  started_tasks (output s i) ++ reverse (tasks (next s i))
  ≡ₚ reverse (tasks s) ++ submitted_by i.
Proof.
  intros Hi. pose proof (queue_step s i Hi) as Hq.
  destruct i as [task f|p ty|p code sig l f|p e l f|p task ty msg f| |lty];
    try done; cbn [dequeued_by queued_by submitted_by] in *;
    try (by rewrite Hq).
  clear Hq. rewrite next_direct, output_direct. cbn [direct].
  destruct (last (idle s)); [|case_bool_decide]; cbn -[reverse];
    rewrite ?reverse_cons; try done.
  apply Permutation_cons_append.
Qed.

(** Over any inputs without a shutdown, crashes included, the tasks started
    (each as often as it was started) together with the tasks still queued
    are the tasks that were queued at the beginning together with the tasks
    submitted: no task is dropped and none is started twice. *)
Theorem tasks_conserved (ins : list Input) (s : Pool) :
  shutdown ∉ ins →
  started_tasks (trace ins s) ++ reverse (tasks (exec ins s))
  ≡ₚ reverse (tasks s) ++ submitted ins.
Proof.
  revert s. induction ins as [|i ins IH]; intros s Hins.
  - cbn. by rewrite app_nil_r.
  - apply not_elem_of_cons in Hins as [Hi Hins].
    cbn [trace exec]. rewrite started_tasks_app, submitted_cons, <-app_assoc.
    rewrite (IH _ Hins), !app_assoc. apply Permutation_app_tail.
    apply conserved_step. congruence.
Qed.

Lemma tasks_conserved_witness :
  let pool := new_Pool 4 "worker.js" (mkGiven (Some 1) None None) in
  let ins := [timeout (mkTask "a") 1; timeout (mkTask "b") 2;
              message 1 "ready"; exit 1 (Some 1) "" 1 2;
              task_event 1 (mkTask "a") "error" "crashed" 2] in
  started_tasks (trace ins pool) ++ reverse (tasks (exec ins pool))
  ≡ₚ reverse (tasks pool) ++ submitted ins.
Proof.
  intros pool ins. apply (tasks_conserved ins pool).
  intros Hin. repeat (apply elem_of_cons in Hin as [Hin|Hin]; [discriminate|]).
  by apply elem_of_nil in Hin.
Defined.

(** ** A new pool and the states it reaches *)

Lemma wf_idle_le_size (s : Pool) :
  wf s → (length (idle s) ≤ size (workers s))%nat.
Proof.
  intros [Hnd Hsub].
  rewrite <-(size_list_to_set (C:=gset pid)) by done.
  rewrite <-(size_dom (workers s)). apply subseteq_size.
  intros p Hp. apply elem_of_list_to_set in Hp. apply elem_of_dom.
  destruct (Hsub p Hp) as (c & -> & _). by eexists.
Qed.

Lemma run_from_options (s0 s : Pool) (past : list Pool) :
  run_from s0 past s → options s = options s0.
Proof.
  induction 1 as [|past s i _ IH _]; [done|].
  by rewrite (proj1 (next_options s i)).
Qed.

(** A pool made by [new Pool(path, options)] and driven by expected inputs
    keeps the data model consistent ([idle] has no duplicates and holds
    only tracked workers that are past their handshake), [total()] stays
    the [workers] option, or the number of cores when none was given, and
    [available()] never exceeds [total()]. *)
Theorem new_pool_stays_consistent (cpus : nat) (path : string)
    (given : GivenOptions) (past : list Pool) (s : Pool) :
  run_from (new_Pool cpus path given) past s →
  wf s
  ∧ total s = default (Z.of_nat cpus) (given_workers given)
  ∧ available s <= total s.
Proof.
  intros Hrun.
  assert (wf (new_Pool cpus path given)) as Hwf0
    by (split; [constructor | by intros p ?%elem_of_nil]).
  pose proof (run_from_wf _ _ _ Hwf0 Hrun) as Hwf.
  pose proof (run_from_options _ _ _ Hrun) as Hopt.
  split; [done|]. unfold total, available. rewrite Hopt. split; [done|].
  rewrite keys_length_size. pose proof (wf_idle_le_size s Hwf). cbn. lia.
Qed.

Lemma new_pool_stays_consistent_witness :
  let pool := new_Pool 4 "worker.js" (mkGiven None None None) in
  let ins := [timeout (mkTask "a") 1; message 1 "ready";
              task_event 1 (mkTask "a") "end" "" 2] in
  let s := exec ins pool in
  wf s ∧ total s = 4 ∧ available s <= total s.
Proof.
  intros pool ins s.
  apply (new_pool_stays_consistent 4 "worker.js" (mkGiven None None None)
           (visited ins [] pool) s).
  apply run_from_inputs; [constructor|].
  repeat split; try (vm_compute; reflexivity);
    match goal with
    | H : _ !! _ = Some _ |- _ => vm_compute in H; injection H as <-
    end;
    first [reflexivity | apply (bool_decide_unpack _); vm_compute; exact I].
Defined.

(** ** The rotation counter *)

Lemma counts_below_insert (max : Z) (w : gmap pid Child) (p : pid) (c : Child) :
  counts_below max w → 0 <= _taskCount_ c <= max →
  counts_below max (<[p:=c]> w).
Proof.
  intros Hw Hc q d. rewrite lookup_insert. case_decide; [|apply Hw].
  by intros [= <-].
Qed.

Lemma counts_below_alter (max : Z) (w : gmap pid Child) (p : pid)
    (f : Child → Child) :
  (∀ c, _taskCount_ (f c) = _taskCount_ c) →
  counts_below max w → counts_below max (alter f p w).
Proof.
  intros Hf Hw q d. rewrite lookup_alter. case_decide; [|apply Hw].
  subst. destruct (w !! q) as [c|] eqn:E; [|done]. intros [= <-].
  rewrite Hf. by eapply Hw.
Qed.

Lemma counts_below_delete (max : Z) (w : gmap pid Child) (p : pid) :
  counts_below max w → counts_below max (delete p w).
Proof.
  intros Hw q d. rewrite lookup_delete. case_decide; [done | apply Hw].
Qed.

Lemma allocated_counts_bounded (s : Pool) (p : pid) (c : Child) :
  Options.maxTasksPerWorker (options s) > 0 →
  workers s !! p = Some c →
  counts_bounded s → counts_bounded (allocated s p c).1.2.
Proof.
  intros Hmax Hc Hb. unfold allocated, rotation_due.
  rewrite (bool_decide_eq_true_2 (_ > 0)) by done. cbn [andb].
  case_bool_decide as Hlim; [|destruct (last (tasks s))].
  - by apply (counts_below_alter _ (workers s)).
  - apply (counts_below_insert _ (workers s)); [done|]. cbn.
    specialize (Hb p c Hc). lia.
  - apply Hb.
Qed.

Lemma next_counts_bounded (s : Pool) (i : Input) :
  Options.maxTasksPerWorker (options s) > 0 →
  counts_bounded s → counts_bounded (next s i).
Proof.
  intros Hmax Hb.
  assert (0 <= _taskCount_ fresh_child <= Options.maxTasksPerWorker (options s))
    as Hfresh by (cbn; lia).
  rewrite next_direct.
  destruct i as [task f|p ty|p code sig l f|p e l f|p task ty msg f| |lty];
    cbn [direct].
  - destruct (last (idle s)); [|case_bool_decide]; [done| |done].
    by apply (counts_below_insert _ (workers s)).
  - destruct (workers s !! p) as [c|] eqn:Hc; [|done].
    destruct (_ready_ c); [done|]. case_bool_decide; [|done].
    apply allocated_counts_bounded; [done| |].
    + cbn. by rewrite lookup_alter, decide_True, Hc.
    + by apply (counts_below_alter _ (workers s)).
  - unfold cleaned. destruct (workers s !! p) as [c|] eqn:Hc; [|done].
    cbn zeta. repeat case_match;
      try (by apply (counts_below_delete _ (workers s)));
      by apply (counts_below_insert _ (delete p (workers s)));
        [apply counts_below_delete|].
  - unfold cleaned. destruct (workers s !! p) as [c|] eqn:Hc; [|done].
    cbn zeta. repeat case_match;
      try (by apply (counts_below_delete _ (workers s)));
      by apply (counts_below_insert _ (delete p (workers s)));
        [apply counts_below_delete|].
  - cbn [fst snd]. case_bool_decide; [|done]. unfold completed.
    destruct (workers s !! p) as [c|] eqn:Hc;
      [by apply allocated_counts_bounded|].
    destruct (tasks s); [done|].
    by apply (counts_below_insert _ (workers s)).
  - intros q d. cbn. rewrite lookup_fmap.
    destruct (workers s !! q) as [c|] eqn:E; [|done]. intros [= <-]. cbn.
    by eapply Hb.
  - exact Hb.
Qed.

(** With a rotation limit set, the [_taskCount_] of a tracked worker never
    exceeds the limit, whatever the sequence of inputs: [_allocate] counts a
    task only for a worker that is below the limit. *)
Theorem task_count_bounded (ins : list Input) (s : Pool) :
  Options.maxTasksPerWorker (options s) > 0 →
  counts_bounded s → counts_bounded (exec ins s).
Proof.
  revert s. induction ins as [|i ins IH]; intros s Hmax Hb; [done|].
  cbn [exec]. apply IH.
  - by rewrite (proj1 (next_options s i)).
  - by apply next_counts_bounded.
Qed.

Lemma task_count_bounded_witness :
  let pool := new_Pool 4 "worker.js" (mkGiven (Some 1) None (Some 2)) in
  let ins := [timeout (mkTask "a") 1; timeout (mkTask "b") 2;
              timeout (mkTask "c") 2; message 1 "ready";
              task_event 1 (mkTask "a") "end" "" 2;
              task_event 1 (mkTask "b") "end" "" 2] in
  counts_bounded (exec ins pool).
Proof.
  intros pool ins. apply (task_count_bounded ins pool).
  - cbn. lia.
  - intros p c Hc. cbn in Hc. by rewrite lookup_empty in Hc.
Defined.

(** ** Kills *)

Lemma killed_pids_app (out1 out2 : list Action) :
  killed_pids (out1 ++ out2) = killed_pids out1 ++ killed_pids out2.
Proof. apply omap_app. Qed.

Lemma output_no_kill (s : Pool) (i : Input) :
  Options.maxTasksPerWorker (options s) <= 0 → i ≠ shutdown →
  killed_pids (output s i) = [].
Proof.
  intros Hmax Hi.
  assert (∀ s1 p c, options s1 = options s →
            killed_pids (allocated s1 p c).2 = []) as Halloc.
  { intros s1 p c Ho. unfold allocated, rotation_due. rewrite Ho.
    rewrite (bool_decide_eq_false_2 (_ > 0)) by lia. cbn [andb].
    destruct (last (tasks s1)); [done|].
    unfold drain_if_all_idle. by case_bool_decide. }
  rewrite output_direct.
  destruct i as [task f|p ty|p code sig l f|p e l f|p task ty msg f| |lty];
    cbn [direct]; try done.
  - by destruct (last (idle s)); [|case_bool_decide].
  - destruct (workers s !! p) as [c|]; [|done].
    destruct (_ready_ c); [done|]. case_bool_decide; [|done]. by apply Halloc.
  - unfold cleaned. by repeat case_match.
  - unfold cleaned. by repeat case_match.
  - cbn [fst snd]. rewrite killed_pids_app.
    replace (killed_pids [proxied task ty msg]) with (@nil pid)
      by (unfold proxied; by case_bool_decide).
    rewrite app_nil_r. case_bool_decide; [|done]. unfold completed.
    destruct (workers s !! p); [by apply Halloc|]. by destruct (tasks s).
Qed.

Lemma trace_no_kill (ins : list Input) (s : Pool) :
  Options.maxTasksPerWorker (options s) <= 0 → shutdown ∉ ins →
  killed_pids (trace ins s) = [].
Proof.
  revert s. induction ins as [|i ins IH]; intros s Hs Hins; [done|].
  apply not_elem_of_cons in Hins as [Hi Hins]. cbn [trace].
  rewrite killed_pids_app, output_no_kill by (done || congruence).
  apply IH; [|done]. by rewrite (proj1 (next_options s i)).
Qed.

(** A pool made without [maxTasksPerWorker], or with one that is not
    positive, never calls [kill()] on a worker unless [drain()] is called:
    the default of the constructor disables the rotation. *)
Theorem pool_without_rotation_never_kills (cpus : nat) (path : string)
    (given : GivenOptions) (ins : list Input) :
  default (-1) (given_maxTasksPerWorker given) <= 0 →
  shutdown ∉ ins →
  killed_pids (trace ins (new_Pool cpus path given)) = [].
Proof. intros Hmax Hins. by apply trace_no_kill. Qed.

Lemma pool_without_rotation_never_kills_witness :
  let ins := [timeout (mkTask "a") 1; message 1 "ready";
              task_event 1 (mkTask "a") "end" "" 2;
              timeout (mkTask "b") 2; task_event 1 (mkTask "b") "end" "" 2] in
  killed_pids (trace ins (new_Pool 4 "worker.js" (mkGiven (Some 1) None None)))
  = [].
Proof.
  intros ins.
  apply (pool_without_rotation_never_kills 4 "worker.js"
           (mkGiven (Some 1) None None) ins).
  - cbn. lia.
  - intros Hin. repeat (apply elem_of_cons in Hin as [Hin|Hin]; [discriminate|]).
    by apply elem_of_nil in Hin.
Defined.

(** ** What the cleanup does to the pool *)

Lemma splice1_indexOf (p : pid) (l : list pid) :
  p ∈ l → Array.splice1 (Array.indexOf p l) l = remove_first p l.
Proof.
  unfold Array.splice1. induction l as [|q l IH]; [by intros ?%elem_of_nil|].
  intros Hin. cbn [Array.indexOf remove_first].
  destruct (decide (p = q)) as [->|Hne]; [done|].
  apply elem_of_cons in Hin as [?|Hin]; [done|].
  destruct (decide (Array.indexOf p l = -1)) as [E|E];
    [by apply indexOf_absent in E|].
  destruct (indexOf_range p l) as [?|Hge]; [done|].
  replace (Z.to_nat (Array.indexOf p l + 1))
    with (S (Z.to_nat (Array.indexOf p l))) by lia.
  by rewrite <-IH.
Qed.

Lemma remove_first_absent (p : pid) (l : list pid) :
  p ∉ l → remove_first p l = l.
Proof.
  induction l as [|q l IH]; [done|]. intros [Hne Hl]%not_elem_of_cons. cbn.
  rewrite decide_False by done. by rewrite IH.
Qed.

Lemma remove_first_NoDup (p : pid) (l : list pid) :
  NoDup l → p ∉ remove_first p l.
Proof.
  induction 1 as [|q l Hq Hnd IH]; [apply not_elem_of_nil|]. cbn.
  destruct (decide (p = q)) as [->|Hne]; [done|].
  rewrite not_elem_of_cons. done.
Qed.

(** Whatever happens next (an error handed to the task, a replacement, a
    log line or the startup exception), [cleanUpChild] first takes its
    worker out of the pool: in a consistent pool the pid is afterwards
    neither tracked nor idle, the queue and the order of the other idle
    workers are as before, and no other worker's entry has changed, the
    replacement's apart. *)
Theorem cleanUpChild_removes_worker (s : Pool) (p : pid) (listeners : nat)
    (forked : pid) (err : string) :
  wf s → forked ≠ p →
  let s' := (cleanUpChild p listeners forked err s).1.2 in
  workers s' !! p = None
  ∧ (p ∉ idle s')
  ∧ idle s' = remove_first p (idle s)
  ∧ tasks s' = tasks s
  ∧ ∀ q, q ≠ p → q ≠ forked → workers s' !! q = workers s !! q.
Proof.
  intros [Hnd Hsub] Hne. cbn zeta. rewrite cleaned_cleanUpChild.
  assert (idle (cleaned s p listeners forked err).1.2 = remove_first p (idle s))
    as Hidle.
  { unfold cleaned. destruct (workers s !! p) as [c|] eqn:Hc.
    - cbn zeta. case_bool_decide as Hin.
      + cbn. by apply splice1_indexOf.
      + rewrite remove_first_absent by done. by repeat case_match.
    - rewrite remove_first_absent; [done|]. intros Hin.
      destruct (Hsub p Hin) as (c & Hc' & _). congruence. }
  split; [|split; [|split; [done|split]]].
  - unfold cleaned. destruct (workers s !! p) as [c|] eqn:Hc; [|done].
    cbn zeta. repeat case_match; cbn; rewrite ?lookup_insert_ne by done;
      apply lookup_delete_eq.
  - rewrite Hidle. by apply remove_first_NoDup.
  - unfold cleaned. destruct (workers s !! p) as [c|] eqn:Hc; [|done].
    cbn zeta. by repeat case_match.
  - intros q Hq Hqf. unfold cleaned.
    destruct (workers s !! p) as [c|] eqn:Hc; [|done].
    cbn zeta. repeat case_match; cbn; rewrite ?lookup_insert_ne by done;
      by rewrite lookup_delete_ne.
Qed.

Lemma cleanUpChild_removes_worker_witness :
  let ready := mkChild true 1 false in
  let s := mkPool "worker.js" (Options.mk 3 [] (-1))
             {[ 1%nat := ready; 2%nat := ready; 3%nat := ready ]}
             [3%nat; 2%nat; 1%nat] [] [] in
  let s' := (cleanUpChild 2 0 9 "gone" s).1.2 in
  workers s' !! 2%nat = None
  ∧ (2%nat ∉ idle s')
  ∧ idle s' = remove_first 2 (idle s)
  ∧ tasks s' = tasks s
  ∧ ∀ q, q ≠ 2%nat → q ≠ 9%nat → workers s' !! q = workers s !! q.
Proof.
  intros ready s. apply (cleanUpChild_removes_worker s 2 0 9 "gone").
  - split.
    + apply (bool_decide_unpack _). vm_compute. exact I.
    + intros p Hp. exists ready.
      repeat (apply elem_of_cons in Hp as [->|Hp]; [by split|]).
      by apply elem_of_nil in Hp.
  - discriminate.
Defined.

Lemma forked_pids_app (out1 out2 : list Action) :
  forked_pids (out1 ++ out2) = forked_pids out1 ++ forked_pids out2.
Proof. apply omap_app. Qed.

(** [cleanUpChild] forks at most one process, and it forks one exactly
    when the child was tracked, not idle and past its handshake, nobody
    listens to its messages, and tasks are queued: an idle worker, or a
    worker lost while the queue is empty, is not replaced. *)
Theorem cleanUpChild_forks_iff_backlog (s : Pool) (p : pid) (listeners : nat)
    (forked : pid) (err : string) :
  forked_pids (cleanUpChild p listeners forked err s).2
  = if replaces s p listeners then [forked] else [].
Proof.
  rewrite cleaned_cleanUpChild. unfold cleaned, replaces.
  destruct (workers s !! p) as [c|]; [|done]. cbn zeta.
  destruct (decide (p ∈ idle s)) as [Hin|Hin].
  - rewrite (bool_decide_eq_true_2 _ Hin).
    by rewrite (bool_decide_eq_false_2 (p ∉ idle s)) by tauto.
  - rewrite (bool_decide_eq_false_2 _ Hin).
    rewrite (bool_decide_eq_true_2 (p ∉ idle s)) by done. cbn [andb].
    destruct (_ready_ c); [|done]. cbn [negb andb].
    destruct listeners as [|n].
    + rewrite bool_decide_eq_false_2 by (intros H; by apply H).
      rewrite (bool_decide_eq_true_2 (0%nat = 0%nat)) by done. cbn [andb].
      destruct (tasks s) eqn:E.
      * rewrite bool_decide_eq_false_2 by (intros H; by apply H).
        by destruct (killed c).
      * rewrite bool_decide_eq_true_2 by done. by destruct (killed c).
    + rewrite bool_decide_eq_true_2 by done.
      by rewrite (bool_decide_eq_false_2 (S n = 0%nat)) by done.
Qed.

(** ** Crashes, retirement and shutdown, step by step *)

Lemma thrown_direct (s : Pool) (i : Input) :
  thrown s i = match (direct s i).1.1 with
               | Normal _ => None
               | Throw e => Some e
               end.
Proof. unfold thrown. by rewrite handle_direct. Qed.

(** A worker that crashes in the middle of a task: the exit handler
    untracks it and hands an error with the exit code or signal to the
    listener of the task; when the task then reports the error, the pool
    forks a replacement if and only if tasks are queued, and proxies the
    error with [emit].  When the pool has a listener for ['error'] nothing
    is thrown; when it has none, that [emit] throws [ERR_UNHANDLED_ERROR]
    out of the task callback, after the pool has been brought up to date.
    [idle] and the queue are untouched. *)
Theorem mid_task_crash_recovery (s : Pool) (p : pid) (c : Child)
    (code : option Z) (signal : string) (listeners : nat) (f0 : pid)
    (task : Task) (msg : string) (forked : pid) :
  workers s !! p = Some c → _ready_ c = true → p ∉ idle s →
  listeners ≠ 0%nat →
  let ins := [exit p code signal listeners f0;
              task_event p task "error" msg forked] in
  trace ins s
  = [listener_call p "error" (exit_message code signal)]
    ++ match tasks s with
       | [] => []
       | _ :: _ => [fork (path s) (Options.arguments (options s)) forked]
       end
    ++ [emit "error" (Some msg) (Some task)]
  ∧ exec ins s
    = match tasks s with
      | [] => set_workers (delete p) s
      | _ :: _ => set_workers (insert forked fresh_child) (set_workers (delete p) s)
      end
  ∧ throws ins s
    = (if bool_decide ("error" ∈ _events s) then [] else [ERR_UNHANDLED_ERROR]).
Proof.
  intros Hc Hr Hidle Hl. cbn zeta. cbn [trace exec throws].
  rewrite !thrown_direct, !output_direct, !next_direct. cbn [direct].
  unfold cleaned. rewrite Hc, Hr. cbn zeta.
  rewrite (bool_decide_eq_false_2 _ Hidle), (bool_decide_eq_true_2 _ Hl).
  cbn [negb fst snd].
  rewrite (bool_decide_eq_true_2 ("error" = "end" ∨ "error" = "error"))
    by (by right).
  unfold completed. cbn [workers set_workers tasks]. rewrite lookup_delete_eq.
  unfold proxied. rewrite (bool_decide_eq_false_2 ("error" = "start")) by done.
  unfold proxy_completion. cbn [_events set_workers].
  rewrite (bool_decide_eq_true_2 ("error" = "error")) by done. cbn [andb].
  destruct (decide ("error" ∈ _events s)) as [Hin|Hin].
  - rewrite (bool_decide_eq_true_2 _ Hin).
    rewrite (bool_decide_eq_false_2 ("error" ∉ _events s)) by tauto.
    by destruct (tasks s).
  - rewrite (bool_decide_eq_false_2 _ Hin).
    rewrite (bool_decide_eq_true_2 ("error" ∉ _events s)) by done.
    by destruct (tasks s).
Qed.

Lemma mid_task_crash_recovery_witness :
  let busy := mkChild true 1 false in
  let s := mkPool "worker.js" (Options.mk 1 [] (-1))
             {[ 1%nat := busy ]} [] [mkTask "next"] ["end"] in
  let ins := [exit 1 None "SIGSEGV" 1 7;
              task_event 1 (mkTask "now") "error" "crashed" 2] in
  trace ins s
  = [listener_call 1 "error" (exit_message None "SIGSEGV")]
    ++ match tasks s with
       | [] => []
       | _ :: _ => [fork (path s) (Options.arguments (options s)) 2]
       end
    ++ [emit "error" (Some "crashed") (Some (mkTask "now"))]
  ∧ exec ins s
    = match tasks s with
      | [] => set_workers (delete 1%nat) s
      | _ :: _ => set_workers (insert 2%nat fresh_child) (set_workers (delete 1%nat) s)
      end
  ∧ throws ins s
    = (if bool_decide ("error" ∈ _events s) then [] else [ERR_UNHANDLED_ERROR]).
Proof.
  intros busy s.
  apply (mid_task_crash_recovery s 1 busy None "SIGSEGV" 1 7
           (mkTask "now") "crashed" 2); try done.
  intros Hin. by apply elem_of_nil in Hin.
Defined.

(** A worker that has reached the rotation limit: when its task ends it is
    killed instead of being given work, and when it then exits with nobody
    listening the exit is logged as a replacement (not as an error, and
    without an error for any task), the worker is untracked, and a new one
    is forked if and only if tasks are queued. *)
Theorem worker_at_limit_is_retired (s : Pool) (p : pid) (c : Child)
    (task : Task) (msg : string) (f1 : pid)
    (code : option Z) (signal : string) (forked : pid) :
  workers s !! p = Some c → _ready_ c = true → p ∉ idle s →
  Options.maxTasksPerWorker (options s) > 0 →
  _taskCount_ c >= Options.maxTasksPerWorker (options s) →
  let ins := [task_event p task "end" msg f1; exit p code signal 0 forked] in
  trace ins s
  = [kill p; emit "end" (Some msg) (Some task);
     console_log "Replacing worker %s after it completed %s tasks"
       [pretty p; pretty (_taskCount_ c)]]
    ++ match tasks s with
       | [] => []
       | _ :: _ => [fork (path s) (Options.arguments (options s)) forked]
       end
  ∧ workers (exec ins s)
    = match tasks s with
      | [] => delete p (workers s)
      | _ :: _ => <[forked:=fresh_child]> (delete p (workers s))
      end
  ∧ idle (exec ins s) = idle s
  ∧ tasks (exec ins s) = tasks s
  ∧ throws ins s = [].
Proof.
  intros Hc Hr Hidle Hmax Hcount. cbn zeta. cbn [trace exec throws].
  rewrite !thrown_direct, !output_direct, !next_direct. cbn [direct].
  rewrite (bool_decide_eq_true_2 ("end" = "end" ∨ "end" = "error"))
    by (by left).
  unfold completed. rewrite Hc. unfold allocated, rotation_due.
  rewrite !bool_decide_eq_true_2 by done. cbn [andb fst snd].
  unfold cleaned. cbn [workers set_workers idle tasks].
  rewrite lookup_alter, decide_True, Hc by done. cbn [fmap option_fmap option_map].
  cbn [mark_killed _ready_ killed _taskCount_ negb].
  rewrite (bool_decide_eq_false_2 _ Hidle), Hr.
  rewrite bool_decide_eq_false_2 by (intros H; by apply H).
  unfold proxied. rewrite (bool_decide_eq_false_2 ("end" = "start")) by done.
  cbn [negb].
  destruct (tasks s) eqn:E;
    cbn [fst snd app workers idle tasks set_workers path options];
    by rewrite delete_alter_eq, ?E.
Qed.

Lemma worker_at_limit_is_retired_witness :
  let worn := mkChild true 2 false in
  let s := mkPool "worker.js" (Options.mk 1 [] 2)
             {[ 1%nat := worn ]} [] [mkTask "next"] [] in
  let ins := [task_event 1 (mkTask "now") "end" "" 7;
              exit 1 None "SIGTERM" 0 2] in
  trace ins s
  = [kill 1; emit "end" (Some "") (Some (mkTask "now"));
     console_log "Replacing worker %s after it completed %s tasks"
       [pretty 1%nat; pretty (_taskCount_ worn)]]
    ++ match tasks s with
       | [] => []
       | _ :: _ => [fork (path s) (Options.arguments (options s)) 2]
       end
  ∧ workers (exec ins s)
    = match tasks s with
      | [] => delete 1%nat (workers s)
      | _ :: _ => <[2%nat:=fresh_child]> (delete 1%nat (workers s))
      end
  ∧ idle (exec ins s) = idle s
  ∧ tasks (exec ins s) = tasks s
  ∧ throws ins s = [].
Proof.
  intros worn s.
  apply (worker_at_limit_is_retired s 1 worn (mkTask "now") "" 7
           None "SIGTERM" 2); try done.
  intros Hin. by apply elem_of_nil in Hin.
Defined.

Lemma forked_pids_kills (ps : list pid) :
  forked_pids (removeAllListeners :: (kill <$> ps)) = [].
Proof. unfold forked_pids. cbn. by induction ps. Qed.

Lemma all_killed_alter (w : gmap pid Child) (p : pid) (f : Child → Child) :
  (∀ c, killed c = true → killed (f c) = true) →
  all_killed w → all_killed (alter f p w).
Proof.
  intros Hf Hw q d. rewrite lookup_alter. case_decide; [|apply Hw].
  subst. destruct (w !! q) as [c|] eqn:E; [|done]. intros [= <-].
  apply Hf. by eapply Hw.
Qed.

Lemma all_killed_delete (w : gmap pid Child) (p : pid) :
  all_killed w → all_killed (delete p w).
Proof.
  intros Hw q d. rewrite lookup_delete. case_decide; [done | apply Hw].
Qed.

Lemma allocated_drained (s : Pool) (p : pid) (c : Child) :
  drained s →
  drained (allocated s p c).1.2 ∧ forked_pids (allocated s p c).2 = [].
Proof.
  intros (Ht & He & Hk). unfold allocated. rewrite Ht. cbn [last].
  destruct (rotation_due s c); cbn [fst snd].
  - split; [|done]. split; [done|]. split; [done|].
    by apply (all_killed_alter (workers s)).
  - split; [done|]. unfold drain_if_all_idle. by case_bool_decide.
Qed.

Lemma cleaned_drained (s : Pool) (p : pid) (listeners : nat) (forked : pid)
    (err : string) :
  drained s →
  drained (cleaned s p listeners forked err).1.2
  ∧ forked_pids (cleaned s p listeners forked err).2 = [].
Proof.
  intros (Ht & He & Hk). unfold cleaned. rewrite Ht.
  assert (drained (set_workers (delete p) s)) as Hd
    by (split; [done|]; split; [done|]; by apply (all_killed_delete (workers s))).
  destruct (workers s !! p) as [c|]; [|done]. cbn zeta.
  repeat case_match; done.
Qed.

Lemma drained_step (s : Pool) (i : Input) :
  passive i = true → drained s →
  drained (next s i) ∧ forked_pids (output s i) = [].
Proof.
  intros Hi Hd. rewrite next_direct, output_direct.
  destruct i as [task f|p ty|p code sig l f|p e l f|p task ty msg f| |lty];
    cbn [direct]; try discriminate.
  - destruct (workers s !! p) as [c|]; [|done].
    destruct (_ready_ c); [done|]. case_bool_decide; [|done].
    apply allocated_drained. destruct Hd as (Ht & He & Hk).
    split; [done|]. split; [done|]. by apply (all_killed_alter (workers s)).
  - by apply cleaned_drained.
  - by apply cleaned_drained.
  - cbn [fst snd]. rewrite forked_pids_app.
    replace (forked_pids [proxied task ty msg]) with (@nil pid)
      by (unfold proxied; by case_bool_decide).
    rewrite app_nil_r. case_bool_decide; [|done]. unfold completed.
    destruct (workers s !! p) as [c|]; [by apply allocated_drained|].
    destruct Hd as (Ht & He & Hk). by rewrite Ht.
  - split; [|cbn [snd]; apply forked_pids_kills].
    destruct Hd as (Ht & He & Hk). split; [done|]. split; [done|].
    intros q d. cbn. rewrite lookup_fmap.
    destruct (workers s !! q); [|done]. by intros [= <-].
Qed.

Lemma drained_exec (ins : list Input) (s : Pool) :
  forallb passive ins = true → drained s →
  drained (exec ins s) ∧ forked_pids (trace ins s) = [].
Proof.
  revert s. induction ins as [|i ins IH]; intros s Hins Hd; [done|].
  cbn [forallb] in Hins. apply andb_true_iff in Hins as [Hi Hins].
  destruct (drained_step s i Hi Hd) as [Hd' Hf].
  destruct (IH (next s i) Hins Hd') as [Hd'' Hf'].
  cbn [exec trace]. by rewrite forked_pids_app, Hf, Hf'.
Qed.

(** After [drain()], and for as long as no task is submitted and no
    listener is registered, whatever the workers and their tasks do: the
    pool forks no process (so no worker that exits or fails is replaced),
    the queue stays empty, the pool has no listener, every tracked worker
    is one that was killed, and the callback of a task that reports
    ['error'] throws [ERR_UNHANDLED_ERROR]. *)
Theorem nothing_restarts_after_drain (s : Pool) (ins : list Input) :
  forallb passive ins = true →
  let s0 := next s shutdown in
  let s' := exec ins s0 in
  forked_pids (trace ins s0) = []
  ∧ tasks s' = []
  ∧ _events s' = []
  ∧ (∀ p c, workers s' !! p = Some c → killed c = true)
  ∧ ∀ p task msg forked,
      thrown s' (task_event p task "error" msg forked)
      = Some ERR_UNHANDLED_ERROR.
Proof.
  intros Hins s0 s'.
  assert (drained s0) as Hd0.
  { unfold s0. rewrite next_direct. cbn. split; [done|]. split; [done|].
    intros q d. cbn. rewrite lookup_fmap.
    destruct (workers s !! q); [|done]. by intros [= <-]. }
  destruct (drained_exec ins s0 Hins Hd0) as [(Ht & He & Hk) Hf].
  split; [done|]. split; [done|]. split; [done|]. split; [done|].
  intros p task msg forked. rewrite thrown_direct. cbn [direct fst].
  unfold proxy_completion.
  rewrite (bool_decide_eq_true_2 ("error" = "error")) by done.
  rewrite (bool_decide_eq_true_2 ("error" ∉ _events s')); [done|].
  unfold s'. rewrite He. apply not_elem_of_nil.
Qed.

Lemma nothing_restarts_after_drain_witness :
  let busy := mkChild true 1 false in
  let s := mkPool "worker.js" (Options.mk 2 [] (-1))
             {[ 1%nat := busy; 2%nat := fresh_child ]} []
             [mkTask "queued"] ["error"] in
  let ins := [message 2 "ready"; exit 2 (Some 0) "" 0 3;
              exit 1 None "SIGTERM" 1 3] in
  let s0 := next s shutdown in
  let s' := exec ins s0 in
  forked_pids (trace ins s0) = []
  ∧ tasks s' = []
  ∧ _events s' = []
  ∧ (∀ p c, workers s' !! p = Some c → killed c = true)
  ∧ ∀ p task msg forked,
      thrown s' (task_event p task "error" msg forked)
      = Some ERR_UNHANDLED_ERROR.
Proof.
  intros busy s ins. apply (nothing_restarts_after_drain s ins). reflexivity.
Defined.

(** ** Spawning and capacity *)

(** A task submitted while no worker is idle and the pool is below its
    limit: the deferred callback forks one worker and queues the task;
    nothing is started until that worker sends [ready], and then the
    worker takes the oldest queued task (this one, if the queue was empty)
    and counts it. *)
Theorem spawn_then_ready_starts_oldest (s : Pool) (task : Task) (forked : pid) :
  idle s = [] →
  Z.of_nat (size (workers s)) < Options.workers (options s) →
  workers s !! forked = None →
  let s1 := next s (timeout task forked) in
  let s2 := next s1 (message forked "ready") in
  output s (timeout task forked)
  = [fork (path s) (Options.arguments (options s)) forked]
  ∧ tasks s1 = task :: tasks s
  ∧ workers s1 = <[forked:=fresh_child]> (workers s)
  ∧ output s1 (message forked "ready")
    = [emit "empty" None None; task_run forked (default task (last (tasks s)))]
  ∧ tasks s2 = removelast (task :: tasks s)
  ∧ workers s2 = <[forked:=mkChild true 1 false]> (workers s)
  ∧ idle s2 = [].
Proof.
  intros Hidle Hsize Hfresh. cbn zeta.
  rewrite !output_direct, !next_direct. cbn [direct].
  rewrite Hidle. cbn [last].
  rewrite bool_decide_eq_true_2 by (by rewrite keys_length_size).
  cbn [fst snd workers tasks set_workers set_tasks idle].
  rewrite lookup_insert_eq. cbn [fresh_child _ready_].
  rewrite bool_decide_eq_true_2 by done.
  unfold allocated, rotation_due.
  cbn [options set_workers set_tasks mark_ready fresh_child _taskCount_ tasks].
  assert (bool_decide (Options.maxTasksPerWorker (options s) > 0)
          && bool_decide (0 >= Options.maxTasksPerWorker (options s)) = false)
    as -> by (repeat case_bool_decide; try done; lia).
  rewrite last_cons.
  assert (match last (tasks s) with
          | Some y => Some y
          | None => Some task
          end = Some (default task (last (tasks s)))) as ->
    by (by destruct (last (tasks s))).
  cbn [fst snd tasks workers idle set_tasks set_workers].
  repeat split; try done.
  apply map_eq. intros q. rewrite lookup_insert, lookup_alter.
  rewrite !lookup_insert. by repeat case_decide.
Qed.

Lemma spawn_then_ready_starts_oldest_witness :
  let busy := mkChild true 1 false in
  let s := mkPool "worker.js" (Options.mk 2 [] (-1))
             {[ 1%nat := busy ]} [] [mkTask "older"] [] in
  let task := mkTask "newer" in
  let s1 := next s (timeout task 2) in
  let s2 := next s1 (message 2 "ready") in
  output s (timeout task 2)
  = [fork (path s) (Options.arguments (options s)) 2]
  ∧ tasks s1 = task :: tasks s
  ∧ workers s1 = <[2%nat:=fresh_child]> (workers s)
  ∧ output s1 (message 2 "ready")
    = [emit "empty" None None; task_run 2 (default task (last (tasks s)))]
  ∧ tasks s2 = removelast (task :: tasks s)
  ∧ workers s2 = <[2%nat:=mkChild true 1 false]> (workers s)
  ∧ idle s2 = [].
Proof.
  intros busy s task.
  apply (spawn_then_ready_starts_oldest s task 2); [done| |done].
  vm_compute. reflexivity.
Defined.

(** What a submitted task does to the capacity: the deferred callback of
    [run] lowers [available()] by one, by starting the task on an idle
    worker or by forking a worker for it, unless no worker is idle and the
    pool is at its limit, in which case [available()] is unchanged; and it
    never takes the number of tracked workers above the limit. *)
Theorem run_deferred_takes_one_unit (s : Pool) (task : Task) (forked : pid) :
  workers s !! forked = None →
  let s' := (run_deferred task forked s).1.2 in
  available s'
  = (if bool_decide (idle s = [])
        && bool_decide (Options.workers (options s) <= Z.of_nat (size (workers s)))
     then available s else available s - 1)
  ∧ (Z.of_nat (size (workers s)) <= Options.workers (options s) →
     Z.of_nat (size (workers s')) <= Options.workers (options s)).
Proof.
  intros Hfresh. cbn zeta. rewrite run_deferred_cases. unfold available.
  rewrite !keys_length_size.
  destruct (last (idle s)) as [p|] eqn:El.
  - apply last_Some in El as [l El]. cbn [fst snd workers idle set_idle options].
    rewrite El, removelast_last.
    rewrite bool_decide_eq_false_2 by (by destruct l).
    cbn [andb]. rewrite length_app. cbn [length]. split; [lia|done].
  - apply last_None in El. rewrite El.
    rewrite (bool_decide_eq_true_2 ([] = [])) by done. cbn [andb].
    case_bool_decide as Hlt.
    + rewrite bool_decide_eq_false_2 by lia.
      cbn [fst snd workers idle set_workers set_tasks options].
      rewrite map_size_insert_None, ?El by done. split; lia.
    + rewrite bool_decide_eq_true_2 by lia.
      cbn [fst snd workers idle set_tasks options]. rewrite ?El.
      split; [lia|done].
Qed.

Lemma run_deferred_takes_one_unit_witness :
  let s := mkPool "worker.js" (Options.mk 2 [] (-1))
             {[ 1%nat := mkChild true 0 false ]} [1%nat] [] [] in
  let s' := (run_deferred (mkTask "a") 2 s).1.2 in
  available s'
  = (if bool_decide (idle s = [])
        && bool_decide (Options.workers (options s) <= Z.of_nat (size (workers s)))
     then available s else available s - 1)
  ∧ (Z.of_nat (size (workers s)) <= Options.workers (options s) →
     Z.of_nat (size (workers s')) <= Options.workers (options s)).
Proof.
  intros s. apply (run_deferred_takes_one_unit s (mkTask "a") 2). reflexivity.
Defined.

(** What [_allocate] does to the capacity: for a tracked worker that is not
    idle, [available()] goes up by one exactly when the worker goes idle,
    that is when the queue is empty and the rotation limit is not reached;
    a worker that takes a queued task or is killed stays counted as busy. *)
Theorem allocate_frees_one_unit (s : Pool) (p : pid) (c : Child) :
  workers s !! p = Some c →
  available (_allocate p s).1.2
  = if negb (rotation_due s c) && bool_decide (tasks s = [])
    then available s + 1 else available s.
Proof.
  intros Hc. rewrite (_allocate_tracked _ _ _ Hc). unfold available.
  rewrite !keys_length_size.
  destruct (rotation_due s c); cbn [negb andb].
  - cbn [fst snd workers idle set_workers options].
    rewrite <-!size_dom, dom_alter_L. done.
  - destruct (last (tasks s)) as [task|] eqn:El.
    + rewrite bool_decide_eq_false_2
        by (intros E; by rewrite E in El).
      cbn [fst snd workers idle set_workers set_tasks options].
      rewrite map_size_insert_Some by eauto. done.
    + apply last_None in El. rewrite (bool_decide_eq_true_2 _ El).
      cbn [fst snd workers idle set_idle options length]. lia.
Qed.

Lemma allocate_frees_one_unit_witness :
  let busy := mkChild true 1 false in
  let s := mkPool "worker.js" (Options.mk 2 [] (-1))
             {[ 1%nat := busy ]} [] [] [] in
  available (_allocate 1 s).1.2
  = if negb (rotation_due s busy) && bool_decide (tasks s = [])
    then available s + 1 else available s.
Proof.
  intros busy s. apply (allocate_frees_one_unit s 1 busy). reflexivity.
Defined.

(** ** When [drain] is emitted *)

Lemma drains_cons_other (a : Action) (out : list Action) :
  a ≠ emit "drain" None None → drains (a :: out) = drains out.
Proof. intros Ha. unfold drains. by rewrite filter_cons_False. Qed.

Lemma drains_kills (ps : list pid) : drains (kill <$> ps) = 0%nat.
Proof.
  induction ps as [|p ps IH]; [done|]. cbn [fmap list_fmap].
  by rewrite drains_cons_other.
Qed.

Lemma drains_proxied (task : Task) (type msg : string) :
  drains [proxied task type msg] = 0%nat.
Proof.
  unfold proxied. case_bool_decide; by rewrite drains_cons_other.
Qed.

Lemma allocate_drains_when_idle (s : Pool) (p : pid) :
  wf s → occupied s p →
  (drains (_allocate p s).2 ≤ 1)%nat
  ∧ (drains (_allocate p s).2 = 1%nat → fully_idle (_allocate p s).1.2 = true).
Proof.
  intros Hwf [Hidle Hready].
  destruct (_allocate_busy_worker s p Hwf Hready Hidle)
    as (s' & out & E & _ & Hd & _).
  rewrite E. cbn [fst snd]. rewrite Hd.
  destruct (fully_idle s'); split; (lia || done).
Qed.

Lemma allocated_drains_own (s : Pool) (p : pid) (c : Child)
    (m : option string) (t : option Task) :
  emit "drain" m t ∈ (allocated s p c).2 → m = None ∧ t = None.
Proof.
  unfold allocated, drain_if_all_idle. repeat case_match; cbn [snd]; intros Hin;
    repeat (apply elem_of_cons in Hin as [Hin|Hin]; [try discriminate|]);
    try (by apply elem_of_nil in Hin).
  by injection Hin as -> ->.
Qed.

Lemma cleaned_emits_no_drain (s : Pool) (p : pid) (listeners : nat)
    (forked : pid) (err : string) (m : option string) (t : option Task) :
  emit "drain" m t ∉ (cleaned s p listeners forked err).2.
Proof.
  unfold cleaned, noop. repeat case_match; cbn [snd]; intros Hin;
    repeat (apply elem_of_cons in Hin as [Hin|Hin]; [try discriminate|]);
    by apply elem_of_nil in Hin.
Qed.

Lemma output_without_allocation (s : Pool) (i : Input) :
  allocates i = false → drains (output s i) = 0%nat.
Proof.
  intros Hi. rewrite output_direct.
  destruct i as [task f|p ty|p code sig l f|p e l f|p task ty msg f| |lty];
    cbn [direct allocates] in *.
  - by destruct (last (idle s)); [|case_bool_decide].
  - rewrite Hi. by repeat case_match.
  - by rewrite <-cleaned_cleanUpChild, cleanUpChild_never_drains.
  - by rewrite <-cleaned_cleanUpChild, cleanUpChild_never_drains.
  - rewrite Hi. cbn [fst snd noop app]. apply drains_proxied.
  - cbn [snd]. by rewrite drains_cons_other, drains_kills.
  - done.
Qed.

Lemma output_drain_events (s : Pool) (i : Input)
    (m : option string) (t : option Task) :
  emit "drain" m t ∈ output s i →
  (m = None ∧ t = None)
  ∨ ∃ p task msg forked,
      i = task_event p task "drain" msg forked ∧ m = Some msg ∧ t = Some task.
Proof.
  rewrite output_direct.
  destruct i as [task f|p ty|p code sig l f|p e l f|p task ty msg f| |lty];
    cbn [direct].
  - intros Hin. exfalso. revert Hin.
    destruct (last (idle s)); [|case_bool_decide]; cbn [snd]; intros Hin;
      repeat (apply elem_of_cons in Hin as [Hin|Hin]; [try discriminate|]);
      by apply elem_of_nil in Hin.
  - destruct (workers s !! p) as [c|]; [|by intros ?%elem_of_nil].
    destruct (_ready_ c); [by intros ?%elem_of_nil|].
    case_bool_decide; [|by intros ?%elem_of_nil].
    intros Hin. left. by eapply allocated_drains_own.
  - intros Hin. by apply cleaned_emits_no_drain in Hin.
  - intros Hin. by apply cleaned_emits_no_drain in Hin.
  - cbn [fst snd]. intros [Hin|Hin]%elem_of_app.
    + left. revert Hin. case_bool_decide; [|by intros ?%elem_of_nil].
      unfold completed. destruct (workers s !! p) as [c|].
      * apply allocated_drains_own.
      * destruct (tasks s); cbn [noop spawned snd]; intros Hin;
          repeat (apply elem_of_cons in Hin as [Hin|Hin]; [try discriminate|]);
          by apply elem_of_nil in Hin.
    + right. apply list_elem_of_singleton in Hin. unfold proxied in Hin.
      case_bool_decide as Hty; [subst ty; discriminate|].
      injection Hin as <- -> ->. by exists p, task, msg, f.
  - cbn [snd]. intros Hin. exfalso.
    apply elem_of_cons in Hin as [Hin|Hin]; [discriminate|].
    by apply list_elem_of_fmap in Hin as (q & ? & _).
  - by intros ?%elem_of_nil.
Qed.

(** The pool's own [drain] signal is the [emit] of ['drain'] without
    arguments.  In a consistent pool and for an expected input, a handler
    emits it at most once, and only when it leaves every tracked worker
    idle and the queue empty.  It is emitted only by the handlers that
    call [_allocate] (the readiness message of a worker and the [end] or
    [error] event of a task): never by [run], by [cleanUpChild] (the exit
    and error handlers), by [drain()], by [on], or for any other message or
    task event.  Any other [emit] of ['drain'] is the proxy of a task event
    whose type is ['drain'], and carries that event's message and task. *)
Theorem drain_only_when_fully_idle (s : Pool) (i : Input) :
  wf s → expected s i →
  (drains (output s i) ≤ 1)%nat
  ∧ (drains (output s i) = 1%nat → fully_idle (next s i) = true)
  ∧ (allocates i = false → drains (output s i) = 0%nat)
  ∧ ∀ m t,
      emit "drain" m t ∈ output s i →
      (m = None ∧ t = None)
      ∨ ∃ p task msg forked,
          i = task_event p task "drain" msg forked
          ∧ m = Some msg ∧ t = Some task.
Proof.
  intros Hwf Hexp.
  enough ((drains (output s i) ≤ 1)%nat
          ∧ (drains (output s i) = 1%nat → fully_idle (next s i) = true))
    as [Hmost Hidle].
  { split; [done|]. split; [done|].
    split; [apply output_without_allocation|].
    intros m t. apply output_drain_events. }
  unfold output, next.
  assert (∀ s', (drains [] ≤ 1)%nat
                ∧ (drains [] = 1%nat → fully_idle s' = true)) as Hnone
    by (intros s'; split; [cbn; lia | done]).
  destruct i as [task f|p ty|p code sig l f|p e l f|p task ty msg f| |lty];
    cbn [handle expected] in *.
  - rewrite run_deferred_cases.
    destruct (last (idle s)); [|case_bool_decide]; cbn [fst snd];
      rewrite drains_cons_other by done; apply Hnone.
  - destruct (on_message_cases s p ty) as [-> | (c & Hc & Hr & _ & ->)];
      [apply Hnone|].
    apply allocate_drains_when_idle.
    + apply (wf_shrink s); [done | done |]. cbn. intros q c' _ Hc' Hr'.
      rewrite lookup_alter. case_decide; [subst|eauto].
      rewrite Hc'. cbn. eauto.
    + split.
      * intros Hin. destruct (proj2 Hwf p Hin) as (c' & Hc' & Hr'). congruence.
      * exists (mark_ready c). split; [|done]. cbn.
        by rewrite lookup_alter, decide_True, Hc.
  - unfold on_exit. rewrite cleanUpChild_never_drains. split; [lia|done].
  - unfold on_error. rewrite cleanUpChild_never_drains. split; [lia|done].
  - rewrite on_task_event_cases. cbn [fst snd].
    rewrite drains_app, drains_proxied, Nat.add_0_r.
    destruct Hexp as [Hfresh Hbusy]. case_bool_decide as Hty; [|apply Hnone].
    destruct (workers s !! p) as [c|] eqn:Hc.
    + rewrite _handleWorkerDone_tracked by eauto.
      destruct (Hbusy Hty c eq_refl) as [Hr Hidle].
      apply allocate_drains_when_idle; [done|]. split; eauto.
    + rewrite _handleWorkerDone_untracked by done.
      destruct (tasks s); [apply Hnone|]. cbn [spawned fst snd].
      rewrite drains_cons_other by done. apply Hnone.
  - rewrite drain_result. cbn [fst snd].
    rewrite drains_cons_other, drains_kills by done. split; [lia|done].
  - apply Hnone.
Qed.

Lemma drain_only_when_fully_idle_witness :
  let busy := mkChild true 1 false in
  let s := mkPool "worker.js" (Options.mk 2 [] (-1))
             {[ 1%nat := busy; 2%nat := busy ]} [2%nat] [] [] in
  let i := task_event 1 (mkTask "a") "end" "" 3 in
  drains (output s i) = 1%nat
  ∧ (drains (output s i) ≤ 1)%nat
  ∧ (drains (output s i) = 1%nat → fully_idle (next s i) = true)
  ∧ (allocates i = false → drains (output s i) = 0%nat)
  ∧ ∀ m t,
      emit "drain" m t ∈ output s i →
      (m = None ∧ t = None)
      ∨ ∃ p task msg forked,
          i = task_event p task "drain" msg forked
          ∧ m = Some msg ∧ t = Some task.
Proof.
  intros busy s i. split; [vm_compute; reflexivity|].
  apply (drain_only_when_fully_idle s i).
  - split.
    + apply NoDup_singleton.
    + intros p Hp. apply list_elem_of_singleton in Hp as ->. by exists busy.
  - split; [vm_compute; reflexivity|]. intros _ c Hc.
    vm_compute in Hc. injection Hc as <-. split; [reflexivity|].
    apply (bool_decide_unpack _). vm_compute. exact I.
Defined.

(** ** The cleanup and the public methods of [src/lib/pool.js] *)

Lemma Object_keys_erase (w : gmap pid Child) :
  Object_keys (erase_child <$> w) = Object_keys w.
Proof.
  unfold Object_keys. by rewrite map_to_list_fmap, <-list_fmap_compose.
Qed.

Lemma lib_cleanUpChild_cases (s : LibPool.Pool) (p : pid) (listeners : nat)
    (err : string) :
  LibPool.cleanUpChild p listeners err s =
    match LibPool.workers s !! p with
    | None => (Normal tt, s, [])
    | Some c =>
        let s1 := LibPool.set_workers (delete p) s in
        if bool_decide (p ∈ LibPool.idle s) then
          (Normal tt,
           LibPool.set_idle (Array.splice1 (Array.indexOf p (LibPool.idle s))) s1,
           [])
        else if negb (LibPool._ready_ c) then
          (Throw "Worker process could not start", s1, [])
        else match listeners with
             | S _ => (Normal tt, s1, [listener_call p "error" err])
             | O => (Throw LibPool.NotAFunction, s1, [])
             end
    end.
Proof.
  unfold LibPool.cleanUpChild. run_m.
  destruct (LibPool.workers s !! p) as [c|]; cbn; [|done].
  destruct (decide (p ∈ LibPool.idle s)) as [Hin|Hin].
  - rewrite (bool_decide_eq_true_2 (p ∈ LibPool.idle s) Hin).
    by rewrite bool_decide_eq_true_2 by (by apply indexOf_present).
  - rewrite (bool_decide_eq_false_2 (p ∈ LibPool.idle s) Hin).
    rewrite bool_decide_eq_false_2 by (by rewrite indexOf_present).
    destruct (LibPool._ready_ c); cbn; [|done]. by destruct listeners.
Qed.

(** The cleanup of the two versions agrees, on the state and on the calls,
    in every case but one: a tracked worker that is past its handshake,
    not idle, and has no message listener.  In particular a crash in the
    middle of a task (a listener is present), the exit of an idle worker
    and a startup failure are handled the same way. *)
Theorem lib_cleanUpChild_same (s : Pool) (p : pid) (listeners : nat)
    (forked : pid) (err : string) :
  (∀ c, workers s !! p = Some c → _ready_ c = true → p ∉ idle s →
        listeners ≠ 0%nat) →
  LibPool.cleanUpChild p listeners err (erase s)
  = erase_result (cleanUpChild p listeners forked err s).
Proof.
  intros Hl. rewrite lib_cleanUpChild_cases, cleaned_cleanUpChild.
  unfold cleaned, erase_result. cbn [LibPool.workers LibPool.idle erase].
  rewrite lookup_fmap. destruct (workers s !! p) as [c|] eqn:Hc; [|done].
  cbn [fmap option_fmap option_map]. cbn zeta.
  destruct (decide (p ∈ idle s)) as [Hin|Hin].
  - rewrite !(bool_decide_eq_true_2 _ Hin). unfold erase. cbn.
    by rewrite fmap_delete.
  - rewrite !(bool_decide_eq_false_2 _ Hin). cbn [erase_child LibPool._ready_].
    destruct (_ready_ c) eqn:Hr; cbn [negb].
    + specialize (Hl c eq_refl Hr Hin). destruct listeners as [|n]; [done|].
      rewrite bool_decide_eq_true_2 by done. unfold erase. cbn.
      by rewrite fmap_delete.
    + unfold erase. cbn. by rewrite fmap_delete.
Qed.

Lemma lib_cleanUpChild_same_witness :
  let busy := mkChild true 1 false in
  let s := mkPool "worker.js" (Options.mk 1 [] (-1))
             {[ 1%nat := busy ]} [] [mkTask "next"] [] in
  LibPool.cleanUpChild 1 1 "gone" (erase s)
  = erase_result (cleanUpChild 1 1 2 "gone" s).
Proof.
  intros busy s. apply (lib_cleanUpChild_same s 1 1 2 "gone"). done.
Defined.

(** The one case in which the versions differ: when a worker that is past
    its handshake and not idle exits and nobody listens to its messages,
    the earlier version untracks it and then throws a [TypeError] (it
    calls the first listener of an empty list), where the later version
    returns normally after logging and replacing the worker. *)
Theorem lib_cleanUpChild_without_listener (s : Pool) (p : pid) (c : Child)
    (forked : pid) (err : string) :
  workers s !! p = Some c → _ready_ c = true → p ∉ idle s →
  LibPool.cleanUpChild p 0 err (erase s)
  = (Throw LibPool.NotAFunction, erase (set_workers (delete p) s), [])
  ∧ (cleanUpChild p 0 forked err s).1.1 = Normal tt
  ∧ workers (cleanUpChild p 0 forked err s).1.2 !! p
    = if decide (forked = p) then
        match tasks s with [] => None | _ :: _ => Some fresh_child end
      else None.
Proof.
  intros Hc Hr Hin. rewrite lib_cleanUpChild_cases, cleaned_cleanUpChild.
  unfold cleaned. cbn [LibPool.workers LibPool.idle erase].
  rewrite lookup_fmap, Hc. cbn [fmap option_fmap option_map]. cbn zeta.
  rewrite !(bool_decide_eq_false_2 _ Hin). cbn [erase_child LibPool._ready_].
  rewrite Hr. cbn [negb].
  rewrite bool_decide_eq_false_2 by (intros H; by apply H).
  split; [|split].
  - unfold erase. cbn. by rewrite fmap_delete.
  - by destruct (tasks s).
  - destruct (tasks s); cbn.
    + rewrite lookup_delete_eq. by case_decide.
    + rewrite lookup_insert. case_decide; [done|]. apply lookup_delete_eq.
Qed.

Lemma lib_cleanUpChild_without_listener_witness :
  let busy := mkChild true 1 true in
  let s := mkPool "worker.js" (Options.mk 1 [] 1)
             {[ 1%nat := busy ]} [] [mkTask "next"] [] in
  LibPool.cleanUpChild 1 0 "gone" (erase s)
  = (Throw LibPool.NotAFunction, erase (set_workers (delete 1%nat) s), [])
  ∧ (cleanUpChild 1 0 2 "gone" s).1.1 = Normal tt
  ∧ workers (cleanUpChild 1 0 2 "gone" s).1.2 !! 1%nat
    = if decide (2%nat = 1%nat) then
        match tasks s with [] => None | _ :: _ => Some fresh_child end
      else None.
Proof.
  intros busy s. apply (lib_cleanUpChild_without_listener s 1 busy 2 "gone");
    try done.
  intros Hin. by apply elem_of_nil in Hin.
Defined.

Lemma lib_forEach_child_kill (keys : list pid) (s : LibPool.Pool) :
  forEach keys LibPool.child_kill s =
    (Normal tt,
     LibPool.set_workers
       (λ w, foldl (λ w key,
                      alter (λ c, LibPool.mkChild (LibPool._ready_ c) true) key w)
                   w keys) s,
     kill <$> keys).
Proof.
  revert s. induction keys as [|key keys IH]; intros s; cbn [forEach].
  - by destruct s.
  - erewrite bind_normal by reflexivity. rewrite IH. by destruct s.
Qed.

Lemma lib_lookup_kill_all (keys : list pid) (w : gmap pid LibPool.Child)
    (p : pid) :
  foldl (λ w key, alter (λ c, LibPool.mkChild (LibPool._ready_ c) true) key w)
        w keys !! p
  = if decide (p ∈ keys)
    then (λ c, LibPool.mkChild (LibPool._ready_ c) true) <$> w !! p
    else w !! p.
Proof.
  revert w. induction keys as [|key keys IH]; intros w; cbn [foldl]; [done|].
  rewrite IH, lookup_alter.
  destruct (decide (p ∈ keys)) as [Hin|Hin],
           (decide (p ∈ key :: keys)) as [Hin'|Hin'],
           (decide (key = p)) as [->|Hne]; try done.
  - by destruct (w !! p).
  - exfalso. apply Hin'. by apply list_elem_of_further.
  - exfalso. apply Hin'. by apply list_elem_of_further.
  - apply elem_of_cons in Hin' as [->|?]; done.
  - exfalso. apply Hin'. apply list_elem_of_here.
Qed.

(** The public methods other than [run] are the same in the two versions:
    [drain()] makes the same calls and leaves the same state, and
    [available()] and [total()] return the same numbers. *)
Theorem lib_public_methods_same (s : Pool) :
  LibPool.drain (erase s) = erase_result (drain s)
  ∧ LibPool.available (erase s) = available s
  ∧ LibPool.total (erase s) = total s.
Proof.
  split; [|split].
  - rewrite drain_result. unfold LibPool.drain.
    erewrite bind_normal by reflexivity. cbv beta.
    erewrite bind_normal by reflexivity. cbv beta.
    erewrite bind_normal by reflexivity. cbv beta.
    erewrite bind_normal by reflexivity. cbv beta.
    rewrite lib_forEach_child_kill.
    change (LibPool.workers
              (LibPool.set_events (λ _, []) (LibPool.set_tasks (λ _, []) (erase s))))
      with (erase_child <$> workers s).
    rewrite Object_keys_erase.
    unfold erase_result, erase, LibPool.set_workers, LibPool.set_tasks,
      LibPool.set_events.
    cbn [fst snd LibPool.workers LibPool.path LibPool.options LibPool.idle
         LibPool.tasks LibPool._events workers set_tasks set_workers set_events
         path options idle tasks _events app].
    f_equal. f_equal. f_equal.
    apply map_eq. intros p. rewrite lib_lookup_kill_all, !lookup_fmap.
    case_decide as Hin.
    + by destruct (workers s !! p).
    + rewrite elem_of_Object_keys in Hin.
      destruct (workers s !! p) eqn:E; [|done]. exfalso. apply Hin. eauto.
  - unfold LibPool.available, available. cbn. by rewrite keys_length_erase.
  - done.
Qed.

(** ** Idle workers and waiting tasks *)

Lemma allocated_idle_or_empty (s : Pool) (p : pid) (c : Child) :
  idle s = [] ∨ tasks s = [] →
  idle (allocated s p c).1.2 = [] ∨ tasks (allocated s p c).1.2 = [].
Proof.
  intros Hq. unfold allocated. destruct (rotation_due s c); [done|].
  destruct (last (tasks s)) as [task|] eqn:El; cbn.
  - destruct Hq as [?|Hq]; [by left|]. by rewrite Hq in El.
  - right. by apply last_None.
Qed.

Lemma next_idle_or_empty (s : Pool) (i : Input) :
  idle s = [] ∨ tasks s = [] →
  idle (next s i) = [] ∨ tasks (next s i) = [].
Proof.
  intros Hq. rewrite next_direct.
  destruct i as [task f|p ty|p code sig l f|p e l f|p task ty msg f| |lty];
    cbn [direct].
  - destruct (last (idle s)) as [p|] eqn:El.
    + destruct Hq as [Hq|?]; [by rewrite Hq in El | by right].
    + apply last_None in El. case_bool_decide; by left.
  - destruct (workers s !! p) as [c|]; [|done].
    destruct (_ready_ c); [done|]. case_bool_decide; [|done].
    by apply allocated_idle_or_empty.
  - unfold cleaned. destruct (workers s !! p) as [c|]; [|done]. cbn zeta.
    case_bool_decide as Hin.
    + destruct Hq as [Hq|?]; [|by right]. rewrite Hq in Hin.
      by apply elem_of_nil in Hin.
    + destruct (negb (_ready_ c)); [exact Hq|].
      destruct (bool_decide (l ≠ 0%nat)); [exact Hq|].
      destruct (tasks s) eqn:E; cbn [fst snd idle tasks set_workers];
        rewrite ?E; exact Hq.
  - unfold cleaned. destruct (workers s !! p) as [c|]; [|done]. cbn zeta.
    case_bool_decide as Hin.
    + destruct Hq as [Hq|?]; [|by right]. rewrite Hq in Hin.
      by apply elem_of_nil in Hin.
    + destruct (negb (_ready_ c)); [exact Hq|].
      destruct (bool_decide (l ≠ 0%nat)); [exact Hq|].
      destruct (tasks s) eqn:E; cbn [fst snd idle tasks set_workers];
        rewrite ?E; exact Hq.
  - cbn [fst snd]. case_bool_decide; [|done]. unfold completed.
    destruct (workers s !! p) as [c|]; [by apply allocated_idle_or_empty|].
    destruct (tasks s) eqn:E; cbn [fst snd idle tasks set_workers spawned noop];
      rewrite ?E; exact Hq.
  - by right.
  - exact Hq.
Qed.

(** No task waits while a worker is idle: whatever the inputs, if the pool
    starts with no idle worker or with an empty queue (as a new pool does),
    then in every later state [idle] is empty or [tasks] is empty. *)
Theorem no_task_waits_while_idle (ins : list Input) (s : Pool) :
  idle s = [] ∨ tasks s = [] →
  idle (exec ins s) = [] ∨ tasks (exec ins s) = [].
Proof.
  revert s. induction ins as [|i ins IH]; intros s Hq; [done|].
  cbn [exec]. by apply IH, next_idle_or_empty.
Qed.

Lemma no_task_waits_while_idle_witness :
  let pool := new_Pool 4 "worker.js" (mkGiven (Some 1) None None) in
  let ins := [timeout (mkTask "a") 1; timeout (mkTask "b") 2;
              message 1 "ready"; task_event 1 (mkTask "a") "end" "" 2;
              task_event 1 (mkTask "b") "end" "" 2] in
  idle (exec ins pool) = [] ∨ tasks (exec ins pool) = [].
Proof.
  intros pool ins. apply (no_task_waits_while_idle ins pool). by left.
Defined.

(** [drain()] kills the idle workers but leaves them in [idle]: a task
    submitted after [drain()], before the workers have exited, is started
    on the longest-idle worker although that worker has been killed, and is
    neither queued nor given a new worker. *)
Theorem run_after_drain_starts_on_killed_worker (s : Pool) (p : pid)
    (c : Child) (task : Task) (forked : pid) :
  last (idle s) = Some p → workers s !! p = Some c →
  let s' := next s shutdown in
  handle (timeout task forked) s'
  = (Normal tt, set_idle (removelast (A:=pid)) s', [task_run p task])
  ∧ workers s' !! p = Some (mark_killed c)
  ∧ tasks (next s' (timeout task forked)) = [].
Proof.
  intros Hlast Hc. cbn zeta. rewrite !next_direct. cbn [handle direct fst snd].
  rewrite run_deferred_cases.
  cbn [idle set_workers set_tasks set_events workers tasks]. rewrite Hlast.
  split; [done|]. split; [|done]. by rewrite lookup_fmap, Hc.
Qed.

Lemma run_after_drain_starts_on_killed_worker_witness :
  let ready := mkChild true 0 false in
  let s := mkPool "worker.js" (Options.mk 1 [] (-1))
             {[ 1%nat := ready ]} [1%nat] [] [] in
  let s' := next s shutdown in
  handle (timeout (mkTask "late") 2) s'
  = (Normal tt, set_idle (removelast (A:=pid)) s', [task_run 1 (mkTask "late")])
  ∧ workers s' !! 1%nat = Some (mark_killed ready)
  ∧ tasks (next s' (timeout (mkTask "late") 2)) = [].
Proof.
  intros ready s.
  apply (run_after_drain_starts_on_killed_worker s 1 ready (mkTask "late") 2);
    reflexivity.
Defined.
